(** * chalice.analyzer: a shallow embedding of the boto3 client-call analyzer

    The analyzer of [src/chalice/analyzer.py] walks a Python syntax tree
    together with the matching [symtable] scope hierarchy, hangs an
    [inferred_type] attribute on tree nodes and on scope symbols, and then
    collects every node typed [Boto3ClientMethodCallType].

    The parser ([ast.parse]) and the scope builder ([symtable.symtable]) are
    the standard library's: the tree and the scope hierarchy are inputs here.
    Python objects that the analyzer mutates are modelled by a store:
    - a tree node is identified by the number it carries ([nid]); the
      [inferred_type] attributes of nodes form a write log, read newest
      first, so that the history of the annotations stays observable;
    - a [symtable] table is identified by its position in the scope
      hierarchy (the standard library memoises table and symbol objects, so
      the attributes the analyzer sets on a symbol persist between lookups).
    The interprocedural step can re-enter a definition without bound, so the
    visitor takes fuel. *)

From stdpp Require Import gmap strings list fin_maps.

Set Warnings "-register-all".

Open Scope string_scope.
Open Scope list_scope.

(** ** Inferred types *)

Inductive ty : Type :=
| Boto3ModuleType
| Boto3CreateClientType
| Boto3ClientType (service_name : string)
| Boto3ClientMethodType (service_name method_name : string)
| Boto3ClientMethodCallType (service_name method_name : string)
| FunctionType (return_type : ty)
| StringLiteral (value : string).

Global Instance ty_eq_dec : EqDecision ty.
Proof. solve_decision. Defined.

(** [t == Boto3CreateClientType()]: every [__eq__] of the hierarchy first
    compares the classes, and [None] equals no instance. *)
Definition eq_Boto3CreateClientType (t : option ty) : bool :=
  match t with Some Boto3CreateClientType => true | _ => false end.

(** [t == Boto3ModuleType()]. *)
Definition eq_Boto3ModuleType (t : option ty) : bool :=
  match t with Some Boto3ModuleType => true | _ => false end.

(** ** Syntax trees (the part of Python 2's [ast] the analyzer tells apart) *)

Definition nid := nat.

Inductive expr : Type :=
| Name (i : nid) (id : string)
| Str (i : nid) (s : string)
| Attribute (i : nid) (value : expr) (attr : string)
| Call (i : nid) (func : expr) (args : list expr)
       (keywords : list (string * expr)) (starargs kwargs : option expr)
| Lambda (i : nid) (args defaults : list expr) (body : expr)
| OtherExpr (i : nid) (children : list expr).

Record alias := { alias_name : string; alias_asname : option string }.

Inductive stmt : Type :=
| FunctionDef (i : nid) (name : string) (args defaults : list expr)
              (body : list stmt) (decorator_list : list expr)
| ClassDef (i : nid) (name : string) (bases : list expr)
           (body : list stmt) (decorator_list : list expr)
| Return (i : nid) (value : option expr)
| Assign (i : nid) (targets : list expr) (value : expr)
| Import (i : nid) (names : list alias)
| Expr (i : nid) (value : expr)
| OtherStmt (i : nid) (children : list (expr + stmt)).

(** [ast.Module] *)
Inductive py_mod : Type :=
| PyModule (i : nid) (body : list stmt).

(** Any node the visitors can be handed. *)
Inductive node : Type :=
| NMod (m : py_mod)
| NStmt (s : stmt)
| NExpr (e : expr).

Definition expr_id (e : expr) : nid :=
  match e with
  | Name i _ | Str i _ | Attribute i _ _ | Call i _ _ _ _ _
  | Lambda i _ _ _ | OtherExpr i _ => i
  end.

Definition stmt_id (s : stmt) : nid :=
  match s with
  | FunctionDef i _ _ _ _ _ | ClassDef i _ _ _ _ | Return i _ | Assign i _ _
  | Import i _ | Expr i _ | OtherStmt i _ => i
  end.

Definition node_id (n : node) : nid :=
  match n with
  | NMod (PyModule i _) => i
  | NStmt s => stmt_id s
  | NExpr e => expr_id e
  end.

Definition opt_nodes (o : option expr) : list node :=
  match o with Some e => [NExpr e] | None => [] end.

Definition sum_node (c : expr + stmt) : node :=
  match c with inl e => NExpr e | inr s => NStmt s end.

(** [ast.iter_child_nodes]: the child nodes in field order.  The helper
    nodes of [ast] ([arguments], [keyword], [alias], the contexts) carry no
    attribute and have no handler, so their own children stand in for
    them. *)
Definition iter_child_nodes (n : node) : list node :=
  match n with
  | NMod (PyModule _ body) => NStmt <$> body
  | NStmt (FunctionDef _ _ args defaults body decorator_list) =>
      (NExpr <$> args) ++ (NExpr <$> defaults) ++ (NStmt <$> body)
        ++ (NExpr <$> decorator_list)
  | NStmt (ClassDef _ _ bases body decorator_list) =>
      (NExpr <$> bases) ++ (NStmt <$> body) ++ (NExpr <$> decorator_list)
  | NStmt (Return _ value) => opt_nodes value
  | NStmt (Assign _ targets value) => (NExpr <$> targets) ++ [NExpr value]
  | NStmt (Import _ _) => []
  | NStmt (Expr _ value) => [NExpr value]
  | NStmt (OtherStmt _ children) => sum_node <$> children
  | NExpr (Name _ _) => []
  | NExpr (Str _ _) => []
  | NExpr (Attribute _ value _) => [NExpr value]
  | NExpr (Call _ func args keywords starargs kwargs) =>
      NExpr func :: (NExpr <$> args) ++ (NExpr ∘ snd <$> keywords)
        ++ opt_nodes starargs ++ opt_nodes kwargs
  | NExpr (Lambda _ args defaults body) =>
      (NExpr <$> args) ++ (NExpr <$> defaults) ++ [NExpr body]
  | NExpr (OtherExpr _ children) => NExpr <$> children
  end.

(** ** Scope hierarchy (what [symtable.symtable] hands over) *)

Record Symbol := { symbol_name : string; is_global : bool }.

Inductive scope : Type :=
| Scope (name : string) (symbols : gmap string bool) (children : list scope).

Definition scope_name (s : scope) : string :=
  match s with Scope n _ _ => n end.
Definition scope_symbols (s : scope) : gmap string bool :=
  match s with Scope _ y _ => y end.
Definition scope_children (s : scope) : list scope :=
  match s with Scope _ _ c => c end.

(** A [symtable.SymbolTable] object: where it sits in the hierarchy, and
    what it describes. *)
Record SymbolTable := { table_id : list nat; table_scope : scope }.

Global Instance SymbolTable_inhabited : Inhabited SymbolTable :=
  populate {| table_id := []; table_scope := Scope "" ∅ [] |}.

Definition get_name (t : SymbolTable) : string := scope_name (table_scope t).

Definition get_children (t : SymbolTable) : list SymbolTable :=
  imap (fun k c => {| table_id := table_id t ++ [k]; table_scope := c |})
       (scope_children (table_scope t)).

(** ** Results: a value, a raised exception, or fuel exhausted *)

Inductive exn : Type :=
| KeyError (name : string)
| ValueError (msg : string)
| AttributeError (attr : string).

Inductive result (A : Type) : Type :=
| Ok (a : A)
| Raise (e : exn)
| OutOfFuel.
Arguments Ok {A} a.
Arguments Raise {A} e.
Arguments OutOfFuel {A}.

Global Instance result_bind : MBind result := fun A B k r =>
  match r with
  | Ok a => k a
  | Raise e => Raise e
  | OutOfFuel => OutOfFuel
  end.

(** A [for] loop threading the store. *)
Fixpoint for_each {A S} (f : S -> A -> result S) (st : S) (l : list A)
  : result S :=
  match l with
  | [] => Ok st
  | x :: l' => st' ← f st x ; for_each f st' l'
  end.

(** ** The store *)

Abbreviation symbol_key := (list nat * string)%type.

Record state := {
  node_types : list (nid * option ty);
  symbol_types : gmap symbol_key (option ty);
  symbol_nodes : gmap symbol_key stmt
}.

Definition empty_state : state :=
  {| node_types := []; symbol_types := ∅; symbol_nodes := ∅ |}.

Fixpoint log_lookup (l : list (nid * option ty)) (i : nid) : option ty :=
  match l with
  | [] => None
  | (j, t) :: l' => if decide (j = i) then t else log_lookup l' i
  end.

(** [getattr(node, 'inferred_type', None)] *)
Definition node_inferred_type (st : state) (i : nid) : option ty :=
  log_lookup (node_types st) i.

(** [node.inferred_type = t] *)
Definition set_node_inferred_type (st : state) (i : nid) (t : option ty)
  : state :=
  {| node_types := (i, t) :: node_types st;
     symbol_types := symbol_types st;
     symbol_nodes := symbol_nodes st |}.

(** [getattr(symbol, 'inferred_type', None)] *)
Definition symbol_inferred_type (st : state) (k : symbol_key) : option ty :=
  default None (symbol_types st !! k).

(** ** ChainedSymbolTable *)

Record ChainedSymbolTable := {
  _local_table : SymbolTable;
  _global_table : SymbolTable
}.

(** [table.lookup(name)]: [KeyError] for a name the scope does not hold. *)
Definition lookup (t : SymbolTable) (name : string) : result Symbol :=
  match scope_symbols (table_scope t) !! name with
  | Some g => Ok {| symbol_name := name; is_global := g |}
  | None => Raise (KeyError name)
  end.

Definition new_sub_table (self : ChainedSymbolTable) (local_table : SymbolTable)
  : ChainedSymbolTable :=
  {| _local_table := local_table; _global_table := _local_table self |}.

Definition get_inferred_type (self : ChainedSymbolTable) (st : state)
  (name : string) : result (option ty) :=
  symbol ← lookup (_local_table self) name;
  if is_global symbol then
    match lookup (_global_table self) name with
    | Ok global_symbol =>
        Ok (symbol_inferred_type st (table_id (_global_table self), name))
    | Raise (KeyError _) => Ok None
    | Raise e => Raise e
    | OutOfFuel => OutOfFuel
    end
  else Ok (symbol_inferred_type st (table_id (_local_table self), name)).

Definition set_inferred_type (self : ChainedSymbolTable) (st : state)
  (name : string) (inferred_type : option ty) : result state :=
  _ ← lookup (_local_table self) name;
  Ok {| node_types := node_types st;
        symbol_types :=
          <[(table_id (_local_table self), name) := inferred_type]>
            (symbol_types st);
        symbol_nodes := symbol_nodes st |}.

Definition find_child (t : SymbolTable) (name : string) : option SymbolTable :=
  List.find (fun child => String.eqb (get_name child) name) (get_children t).

Definition lookup_sub_namespace (self : ChainedSymbolTable) (name : string)
  : result ChainedSymbolTable :=
  match find_child (_local_table self) name with
  | Some child =>
      Ok {| _local_table := child; _global_table := _local_table self |}
  | None =>
      match find_child (_global_table self) name with
      | Some child =>
          Ok {| _local_table := child; _global_table := _global_table self |}
      | None =>
          Raise (ValueError (String.append "Unknown symbol name: " name))
      end
  end.

Definition register_ast_node_for_symbol (self : ChainedSymbolTable)
  (st : state) (name : string) (node : stmt) : result state :=
  _ ← lookup (_local_table self) name;
  Ok {| node_types := node_types st;
        symbol_types := symbol_types st;
        symbol_nodes :=
          <[(table_id (_local_table self), name) := node]> (symbol_nodes st) |}.

Definition lookup_ast_node_for_symbol (self : ChainedSymbolTable) (st : state)
  (name : string) : result stmt :=
  symbol ← lookup (_local_table self) name;
  tbl ← (if is_global symbol
         then _ ← lookup (_global_table self) name ; Ok (_global_table self)
         else Ok (_local_table self));
  match symbol_nodes st !! (table_id tbl, name) with
  | Some node => Ok node
  | None =>
      Raise (ValueError
               (String.append "No AST node registered for symbol: " name))
  end.

Definition has_ast_node_for_symbol (self : ChainedSymbolTable) (st : state)
  (name : string) : bool :=
  match lookup_ast_node_for_symbol self st name with
  | Ok _ => true
  | _ => false
  end.

(** ** ParsedCode *)

Record ParsedCode := {
  parsed_ast : node;
  symbol_table : ChainedSymbolTable
}.

(** [parse_code], after the two standard-library calls: the tree [parsed]
    of [ast.parse] and the top scope [table] of [symtable.symtable]. *)
Definition parse_code (parsed : py_mod) (table : scope) : ParsedCode :=
  let top := {| table_id := []; table_scope := table |} in
  {| parsed_ast := NMod parsed;
     symbol_table := {| _local_table := top; _global_table := top |} |}.

(** ** SymbolTableTypeInfer *)

Definition _SDK_PACKAGE : string := "boto3".
Definition _CREATE_CLIENT : string := "client".

Record SymbolTableTypeInfer := {
  _symbol_table : ChainedSymbolTable;
  _current_ast_namespace : node
}.

Section Rules.
(** [self.visit] of any engine instance, one level of recursion down. *)
Variable visit : SymbolTableTypeInfer -> state -> node -> result state.

Definition generic_visit (self : SymbolTableTypeInfer) (st : state)
  (n : node) : result state :=
  for_each (visit self) st (iter_child_nodes n).

Definition bind_types (st : state) (parsed_code : ParsedCode)
  : result state :=
  visit {| _symbol_table := symbol_table parsed_code;
           _current_ast_namespace := parsed_ast parsed_code |}
        st (parsed_ast parsed_code).

(** The loop rebinds [node] to the aliases, and an [alias] has no child
    node: the closing [generic_visit] visits nothing. *)
Definition visit_Import (self : SymbolTableTypeInfer) (st : state)
  (names : list alias) : result state :=
  for_each
    (fun st a =>
       let import_name := alias_name a in
       if String.eqb import_name _SDK_PACKAGE
       then set_inferred_type (_symbol_table self) st import_name
              (Some Boto3ModuleType)
       else Ok st)
    st names.

Definition visit_Name (self : SymbolTableTypeInfer) (st : state)
  (i : nid) (id : string) : result state :=
  t ← get_inferred_type (_symbol_table self) st id;
  Ok (set_node_inferred_type st i t).

Definition visit_Assign (self : SymbolTableTypeInfer) (st : state)
  (i : nid) (targets : list expr) (value : expr) : result state :=
  st ← generic_visit self st (NStmt (Assign i targets value));
  let rhs_inferred_type := node_inferred_type st (expr_id value) in
  let '(rhs_inferred_type, st) :=
    match rhs_inferred_type, value with
    | None, Str vi s =>
        (Some (StringLiteral s),
         set_node_inferred_type st vi (Some (StringLiteral s)))
    | _, _ => (rhs_inferred_type, st)
    end in
  for_each
    (fun st t =>
       match t with
       | Name ti tid =>
           st ← set_inferred_type (_symbol_table self) st tid
                  rhs_inferred_type;
           Ok (set_node_inferred_type st ti rhs_inferred_type)
       | _ => Ok st
       end)
    st targets.

Definition visit_Attribute (self : SymbolTableTypeInfer) (st : state)
  (i : nid) (value : expr) (attr : string) : result state :=
  st ← generic_visit self st (NExpr (Attribute i value attr));
  let lhs_inferred_type := node_inferred_type st (expr_id value) in
  match lhs_inferred_type with
  | None => Ok st
  | Some lhs =>
      if eq_Boto3ModuleType lhs_inferred_type then
        if String.eqb attr _CREATE_CLIENT
        then Ok (set_node_inferred_type st i (Some Boto3CreateClientType))
        else Ok st
      else
        match lhs with
        | Boto3ClientType service_name =>
            Ok (set_node_inferred_type st i
                  (Some (Boto3ClientMethodType service_name attr)))
        | _ => Ok st
        end
  end.

(** Positional arguments only; [zip] stops at the shorter list. *)
Definition _map_function_params (sub_table : ChainedSymbolTable)
  (st : state) (args : list expr) (def_node : stmt) : result state :=
  match def_node with
  | FunctionDef _ _ defined_args _ _ _ =>
      for_each
        (fun st '(arg, defined) =>
           match node_inferred_type st (expr_id arg) with
           | Some inferred_type =>
               match defined with
               | Name _ id =>
                   set_inferred_type sub_table st id (Some inferred_type)
               | _ => Raise (AttributeError "id")
               end
           | None => Ok st
           end)
        st (zip args defined_args)
  | _ => Raise (AttributeError "args")
  end.

Definition _infer_function_call (self : SymbolTableTypeInfer) (st : state)
  (i : nid) (function_name : string) (args : list expr) : result state :=
  sub_table ← lookup_sub_namespace (_symbol_table self) function_name;
  ast_node ← lookup_ast_node_for_symbol (_symbol_table self) st
                                         function_name;
  st ← _map_function_params sub_table st args ast_node;
  st ← bind_types st {| parsed_ast := NStmt ast_node;
                        symbol_table := sub_table |};
  let inferred_func_type := node_inferred_type st (stmt_id ast_node) in
  st ← set_inferred_type (_symbol_table self) st function_name
         inferred_func_type;
  match inferred_func_type with
  | Some (FunctionType return_type) =>
      Ok (set_node_inferred_type st i (Some return_type))
  | _ => Ok st
  end.

Definition visit_Call (self : SymbolTableTypeInfer) (st : state)
  (i : nid) (func : expr) (args : list expr)
  (keywords : list (string * expr)) (starargs kwargs : option expr)
  : result state :=
  st ← generic_visit self st
         (NExpr (Call i func args keywords starargs kwargs));
  let inferred_func_type := node_inferred_type st (expr_id func) in
  if eq_Boto3CreateClientType inferred_func_type then
    match args with
    | service_arg :: _ =>
        match service_arg with
        | Str _ s =>
            Ok (set_node_inferred_type st i (Some (Boto3ClientType s)))
        | _ =>
            match node_inferred_type st (expr_id service_arg) with
            | Some (StringLiteral v) =>
                Ok (set_node_inferred_type st i (Some (Boto3ClientType v)))
            | _ => Ok st
            end
        end
    | [] => Ok st
    end
  else
    match inferred_func_type with
    | Some (Boto3ClientMethodType service_name method_name)
    | Some (Boto3ClientMethodCallType service_name method_name) =>
        Ok (set_node_inferred_type st i
              (Some (Boto3ClientMethodCallType service_name method_name)))
    | Some (FunctionType return_type) =>
        Ok (set_node_inferred_type st i (Some return_type))
    | _ =>
        match func with
        | Name _ id =>
            if has_ast_node_for_symbol (_symbol_table self) st id
            then _infer_function_call self st i id args
            else Ok st
        | _ => Ok st
        end
    end.

Definition visit_Lambda (self : SymbolTableTypeInfer) (st : state)
  : result state := Ok st.

Definition visit_FunctionDef (self : SymbolTableTypeInfer) (st : state)
  (node : stmt) (name : string) (body : list stmt) : result state :=
  if String.eqb name (get_name (_local_table (_symbol_table self)))
  then for_each (visit self) st (NStmt <$> body)
  else register_ast_node_for_symbol (_symbol_table self) st name node.

Definition visit_ClassDef (self : SymbolTableTypeInfer) (st : state)
  : result state := Ok st.

Definition visit_Return (self : SymbolTableTypeInfer) (st : state)
  (i : nid) (value : option expr) : result state :=
  st ← generic_visit self st (NStmt (Return i value));
  match value ≫= (fun e => node_inferred_type st (expr_id e)) with
  | Some inferred_type =>
      let st := set_node_inferred_type st i (Some inferred_type) in
      Ok (set_node_inferred_type st
            (node_id (_current_ast_namespace self))
            (Some (FunctionType inferred_type)))
  | None => Ok st
  end.

(** [ast.NodeVisitor.visit]: the handler named after the node's class,
    [generic_visit] when there is none. *)
Definition visit_node (self : SymbolTableTypeInfer) (st : state)
  (n : node) : result state :=
  match n with
  | NStmt (Import _ names) => visit_Import self st names
  | NExpr (Name i id) => visit_Name self st i id
  | NStmt (Assign i targets value) => visit_Assign self st i targets value
  | NExpr (Attribute i value attr) => visit_Attribute self st i value attr
  | NExpr (Call i func args keywords starargs kwargs) =>
      visit_Call self st i func args keywords starargs kwargs
  | NExpr (Lambda _ _ _ _) => visit_Lambda self st
  | NStmt (FunctionDef _ name _ _ body _ as node) =>
      visit_FunctionDef self st node name body
  | NStmt (ClassDef _ _ _ _ _) => visit_ClassDef self st
  | NStmt (Return i value) => visit_Return self st i value
  | _ => generic_visit self st n
  end.
End Rules.

(** The visitor: each nested Python call of [visit] takes one unit of
    fuel. *)
Fixpoint visit (fuel : nat) (self : SymbolTableTypeInfer) (st : state)
  (n : node) {struct fuel} : result state :=
  match fuel with
  | 0 => OutOfFuel
  | S fuel => visit_node (visit fuel) self st n
  end.

(** ** APICallCollector *)

(** All nodes below and including a node, parents first ([ast.walk] in
    depth-first order): the order in which [APICallCollector.visit] meets
    them. *)
Fixpoint walk_expr (e : expr) : list node :=
  NExpr e ::
  match e with
  | Name _ _ | Str _ _ => []
  | Attribute _ value _ => walk_expr value
  | Call _ func args keywords starargs kwargs =>
      walk_expr func ++ flat_map walk_expr args
        ++ flat_map (fun kw => match kw with (_, v) => walk_expr v end) keywords
        ++ match starargs with Some a => walk_expr a | None => [] end
        ++ match kwargs with Some a => walk_expr a | None => [] end
  | Lambda _ args defaults body =>
      flat_map walk_expr args ++ flat_map walk_expr defaults ++ walk_expr body
  | OtherExpr _ children => flat_map walk_expr children
  end.

Fixpoint walk_stmt (s : stmt) : list node :=
  NStmt s ::
  match s with
  | FunctionDef _ _ args defaults body decorator_list =>
      flat_map walk_expr args ++ flat_map walk_expr defaults
        ++ flat_map walk_stmt body ++ flat_map walk_expr decorator_list
  | ClassDef _ _ bases body decorator_list =>
      flat_map walk_expr bases ++ flat_map walk_stmt body
        ++ flat_map walk_expr decorator_list
  | Return _ value => match value with Some v => walk_expr v | None => [] end
  | Assign _ targets value => flat_map walk_expr targets ++ walk_expr value
  | Import _ _ => []
  | Expr _ value => walk_expr value
  | OtherStmt _ children =>
      flat_map (fun c => match c with
                         | inl e => walk_expr e
                         | inr s' => walk_stmt s'
                         end) children
  end.

Definition walk (n : node) : list node :=
  match n with
  | NMod (PyModule _ body as m) => NMod m :: flat_map walk_stmt body
  | NStmt s => walk_stmt s
  | NExpr e => walk_expr e
  end.

(** [self.api_calls.setdefault(service, set()).add(method)] *)
Definition add_api_call (api_calls : gmap string (gset string))
  (service_name method_name : string) : gmap string (gset string) :=
  <[service_name := {[method_name]} ∪ default ∅ (api_calls !! service_name)]>
    api_calls.

(** What [APICallCollector.visit] does at one node, before it descends. *)
Definition collector_visit (st : state) (api_calls : gmap string (gset string))
  (n : node) : gmap string (gset string) :=
  match node_inferred_type st (node_id n) with
  | Some (Boto3ClientMethodCallType service_name method_name) =>
      add_api_call api_calls service_name method_name
  | _ => api_calls
  end.

Definition collect_api_calls (st : state) (n : node)
  : gmap string (gset string) :=
  foldl (collector_visit st) ∅ (walk n).

(** ** AppViewTransformer *)

Definition _is_chalice_view (decorator_list : list expr) : bool :=
  existsb
    (fun decorator =>
       match decorator with
       | Call _ (Attribute _ _ attr) args _ _ _ =>
           String.eqb attr "route" && negb (Nat.eqb (length args) 0)
       | _ => false
       end)
    decorator_list.

(** The three nodes [_auto_invoke_view] creates are new objects: they take
    the identities [fresh + 3 * i ..] for the definition numbered [i], where
    [fresh] lies above every identity of the tree. *)
Definition _auto_invoke_view (fresh : nid) (i : nid) (name : string) : stmt :=
  Expr (fresh + 3 * i)
       (Call (fresh + 3 * i + 1) (Name (fresh + 3 * i + 2) name) [] []
             None None).

(** [NodeTransformer.visit] on a statement: the statements that replace it
    in the enclosing list.  [visit_FunctionDef] does not descend. *)
Fixpoint transform_stmt (fresh : nid) (s : stmt) : list stmt :=
  match s with
  | FunctionDef i name _ _ _ decorator_list =>
      if _is_chalice_view decorator_list
      then [s; _auto_invoke_view fresh i name]
      else [s]
  | ClassDef i name bases body decorator_list =>
      [ClassDef i name bases (flat_map (transform_stmt fresh) body)
                decorator_list]
  | OtherStmt i children =>
      [OtherStmt i
         (flat_map (fun c => match c with
                             | inl e => [inl e]
                             | inr s' => inr <$> transform_stmt fresh s'
                             end) children)]
  | _ => [s]
  end.

Definition max_id (n : node) : nid :=
  foldr Nat.max 0 (node_id <$> walk n).

Definition AppViewTransformer_visit (m : py_mod) : py_mod :=
  match m with
  | PyModule i body =>
      PyModule i (flat_map (transform_stmt (S (max_id (NMod m)))) body)
  end.

(** ** Entry points *)

Definition get_client_calls (fuel : nat) (parsed : py_mod) (table : scope)
  : result (gmap string (gset string)) :=
  let parsed := parse_code parsed table in
  st ← bind_types (visit fuel) empty_state parsed;
  Ok (collect_api_calls st (parsed_ast parsed)).

Definition get_client_calls_for_app (fuel : nat) (parsed : py_mod)
  (table : scope) : result (gmap string (gset string)) :=
  let parsed := parse_code (AppViewTransformer_visit parsed) table in
  st ← bind_types (visit fuel) empty_state parsed;
  Ok (collect_api_calls st (parsed_ast parsed)).

(** ** Notions the statements below use *)

(** [refines r1 r2]: [r2] is [r1], or [r1] ran out of fuel. *)
Definition refines {A} (r1 r2 : result A) : Prop :=
  r1 = OutOfFuel \/ r1 = r2.

(** The value of an argument that resolves as a literal string: a string
    literal, or a node whose inferred type is a [StringLiteral]. *)
Definition literal_string_value (st : state) (a : expr) : option string :=
  match a with
  | Str _ s => Some s
  | _ =>
      match node_inferred_type st (expr_id a) with
      | Some (StringLiteral v) => Some v
      | _ => None
      end
  end.

(** The client-factory rule read over any argument of the call: whenever
    the callee is the client factory and some positional argument resolves
    as a literal, the call node is typed [Boto3ClientType v] for the value
    [v] of an argument that resolves so. *)
Definition client_factory_rule_for_any_argument : Prop :=
  forall fuel self st i func args keywords starargs kwargs st1 st',
    generic_visit (visit fuel) self st
      (NExpr (Call i func args keywords starargs kwargs)) = Ok st1 ->
    node_inferred_type st1 (expr_id func) = Some Boto3CreateClientType ->
    (exists a v, a ∈ args /\ literal_string_value st1 a = Some v) ->
    visit (S fuel) self st
      (NExpr (Call i func args keywords starargs kwargs)) = Ok st' ->
    exists a v,
      a ∈ args /\ literal_string_value st1 a = Some v /\
      node_inferred_type st' i = Some (Boto3ClientType v).

(** [literal_string_value], read in a history of annotations. *)
Definition literal_of (log : list (nid * option ty)) (a : expr)
  : option string :=
  match a with
  | Str _ s => Some s
  | _ =>
      match log_lookup log (expr_id a) with
      | Some (StringLiteral v) => Some v
      | _ => None
      end
  end.

(** The service a type is about, directly or as the return type of a
    function. *)
Fixpoint service_of (t : ty) : option string :=
  match t with
  | Boto3ClientType s | Boto3ClientMethodType s _
  | Boto3ClientMethodCallType s _ => Some s
  | FunctionType r => service_of r
  | _ => None
  end.

(** Some scope of the hierarchy declares the name. *)
Fixpoint declares (name : string) (s : scope) : bool :=
  match s with
  | Scope _ symbols children =>
      bool_decide (is_Some (symbols !! name))
      || existsb (declares name) children
  end.

(** The aliased import read over the whole source: wherever the statement
    stands in a program no scope of which declares [boto3], the analysis does
    not complete. *)
Definition aliased_import_anywhere_aborts : Prop :=
  forall fuel parsed table j names calls,
    NStmt (Import j names) ∈ walk (NMod parsed) ->
    Exists (fun a => alias_name a = "boto3") names ->
    declares "boto3" table = false ->
    get_client_calls fuel parsed table <> Ok calls.

(** No two parameters of a definition share a name (Python rejects a
    definition that repeats one). *)
Definition distinct_parameters (params : list expr) : Prop :=
  forall k k' pj pj' pid,
    params !! k = Some (Name pj pid) -> params !! k' = Some (Name pj' pid) ->
    k = k'.

(** The store a finished run leaves. *)
Definition final_state (r : result state) : state :=
  match r with Ok st => st | _ => empty_state end.

Definition is_Ok {A} (r : result A) : bool :=
  match r with Ok _ => true | _ => false end.

(** [n] is a node of the tree under [root]. *)
Definition child_of (p c : node) : Prop := c ∈ iter_child_nodes p.
Definition in_tree (root n : node) : Prop := rtc child_of root n.

(** The service and method of the invocation a type carries, directly or as
    the return type of a function. *)
Fixpoint invocation_of (t : ty) : option (string * string) :=
  match t with
  | Boto3ClientMethodCallType s m => Some (s, m)
  | FunctionType r => invocation_of r
  | _ => None
  end.

(** Somewhere in the history [log] of annotations, a call node among the
    nodes [P] was typed [Boto3ClientMethodCallType s m] at a moment when its
    callee node was typed [Boto3ClientMethodType s m]. *)
Definition method_call_site_in (P : node -> Prop)
  (log : list (nid * option ty)) (s m : string) : Prop :=
  exists i func args keywords starargs kwargs old,
    P (NExpr (Call i func args keywords starargs kwargs)) /\
    suffix ((i, Some (Boto3ClientMethodCallType s m)) :: old) log /\
    log_lookup old (expr_id func) = Some (Boto3ClientMethodType s m).

Definition method_call_site (root : node) :=
  method_call_site_in (fun n => n ∈ walk root).

(** Somewhere in the history [log] of annotations, a call node among the
    nodes [P] was typed [Boto3ClientType s] at a moment when its callee node
    was typed [Boto3CreateClientType] and its first positional argument
    resolved as the literal [s]. *)
Definition factory_call_site_in (P : node -> Prop)
  (log : list (nid * option ty)) (s : string) : Prop :=
  exists i func args keywords starargs kwargs old,
    P (NExpr (Call i func args keywords starargs kwargs)) /\
    suffix ((i, Some (Boto3ClientType s)) :: old) log /\
    log_lookup old (expr_id func) = Some Boto3CreateClientType /\
    head args ≫= literal_of old = Some s.

Definition factory_call_site (root : node) :=
  factory_call_site_in (fun n => n ∈ walk root).

(** The invariant read on the final annotations alone: only a call node
    whose callee is typed [Boto3ClientMethodType s m] is ever typed
    [Boto3ClientMethodCallType s m]. *)
Definition invocation_only_on_method_calls : Prop :=
  forall fuel parsed table st n s m,
    bind_types (visit fuel) empty_state (parse_code parsed table) = Ok st ->
    n ∈ walk (NMod parsed) ->
    node_inferred_type st (node_id n)
      = Some (Boto3ClientMethodCallType s m) ->
    exists i func args keywords starargs kwargs,
      n = NExpr (Call i func args keywords starargs kwargs) /\
      node_inferred_type st (expr_id func)
        = Some (Boto3ClientMethodType s m).

(** The node is among the nodes [l], or belongs to the statement that the
    preprocessor inserts after a view defined among them. *)
Definition in_list_or_inserted (fresh : nid) (l : list node) (n : node)
  : Prop :=
  n ∈ l \/
  exists i name args defaults body decorator_list,
    NStmt (FunctionDef i name args defaults body decorator_list) ∈ l /\
    _is_chalice_view decorator_list = true /\
    n ∈ walk_stmt (_auto_invoke_view fresh i name).

(** The node is present in the source, or was inserted by the
    preprocessor. *)
Definition in_source_or_inserted (parsed : py_mod) (n : node) : Prop :=
  in_list_or_inserted (S (max_id (NMod parsed))) (walk (NMod parsed)) n.

(** The second half of the invariant read over the application mode: every
    pair of its mapping has a call site among the nodes of the source. *)
Definition every_pair_has_a_call_site_in_the_source : Prop :=
  forall fuel parsed table st s ms m,
    bind_types (visit fuel) empty_state
      (parse_code (AppViewTransformer_visit parsed) table) = Ok st ->
    collect_api_calls st (NMod (AppViewTransformer_visit parsed)) !! s
      = Some ms ->
    m ∈ ms ->
    method_call_site (NMod parsed) (node_types st) s m.

(** Every invocation a type carries has its call site in the history. *)
Definition justified (root : node) (log : list (nid * option ty))
  (ot : option ty) : Prop :=
  forall t s m,
    ot = Some t -> invocation_of t = Some (s, m) ->
    method_call_site_in (in_tree root) log s m.

(** What the visitor maintains: registered definitions are nodes of the
    tree, and every invocation recorded on a symbol or ever written on a
    node has its call site in the history. *)
Record provenance (root : node) (st : state) : Prop := {
  prov_defs : forall k def,
    symbol_nodes st !! k = Some def -> in_tree root (NStmt def);
  prov_symbols : forall k ot,
    symbol_types st !! k = Some ot -> justified root (node_types st) ot;
  prov_nodes : forall i ot,
    (i, ot) ∈ node_types st -> justified root (node_types st) ot
}.

(** Every service a type is about was resolved at a client-factory call. *)
Definition resolved (root : node) (log : list (nid * option ty))
  (ot : option ty) : Prop :=
  forall t s,
    ot = Some t -> service_of t = Some s ->
    factory_call_site_in (in_tree root) log s.

(** What the visitor maintains about services: every service named by a
    type recorded on a symbol or ever written on a node is the literal value
    that the first argument of a client-factory call resolved to. *)
Record service_provenance (root : node) (st : state) : Prop := {
  sprov_defs : forall k def,
    symbol_nodes st !! k = Some def -> in_tree root (NStmt def);
  sprov_symbols : forall k ot,
    symbol_types st !! k = Some ot -> resolved root (node_types st) ot;
  sprov_nodes : forall i ot,
    (i, ot) ∈ node_types st -> resolved root (node_types st) ot
}.











(** ** Sample programs, as the front end hands them over *)

Definition boto3_alias : alias :=
  {| alias_name := "boto3"; alias_asname := None |}.

(** [boto3.client(<service>)] with the given node numbers. *)
Definition client_of (i j k : nid) (service : expr) : expr :=
  Call i (Attribute j (Name k "boto3") "client") [service] [] None None.

(** <<
import boto3
def make():
    return boto3.client('s3')
x = make()
x.put_object()
>> *)
Definition interprocedural_ast : py_mod :=
  PyModule 0
    [ Import 1 [boto3_alias];
      FunctionDef 2 "make" [] []
        [Return 3 (Some (client_of 4 5 6 (Str 7 "s3")))] [];
      Assign 8 [Name 9 "x"] (Call 10 (Name 11 "make") [] [] None None);
      Expr 12 (Call 13 (Attribute 14 (Name 15 "x") "put_object") [] []
                    None None) ].

Definition interprocedural_table : scope :=
  Scope "top" (<["boto3" := false]> (<["make" := false]> {["x" := false]}))
    [Scope "make" {["boto3" := true]} []].

(** <<
import boto3
name = 's3'
client = boto3.client(name)
client.get_object()
>> *)
Definition literal_variable_ast : py_mod :=
  PyModule 0
    [ Import 1 [boto3_alias];
      Assign 2 [Name 3 "name"] (Str 4 "s3");
      Assign 5 [Name 6 "client"] (client_of 7 8 9 (Name 10 "name"));
      Expr 11 (Call 12 (Attribute 13 (Name 14 "client") "get_object") [] []
                    None None) ].

Definition literal_variable_table : scope :=
  Scope "top"
    (<["boto3" := false]> (<["name" := false]> {["client" := false]})) [].

(** <<
import boto3 as b
b.client('s3').list_objects()
>> *)
Definition aliased_import_ast : py_mod :=
  PyModule 0
    [ Import 1 [{| alias_name := "boto3"; alias_asname := Some "b" |}];
      Expr 2 (Call 3 (Attribute 4
                        (Call 5 (Attribute 6 (Name 7 "b") "client")
                              [Str 8 "s3"] [] None None)
                        "list_objects") [] [] None None) ].

Definition aliased_import_table : scope :=
  Scope "top" {["b" := false]} [].

Definition boto3_as_b : alias :=
  {| alias_name := "boto3"; alias_asname := Some "b" |}.

(** [b.client('s3').list_objects()] with node numbers from [i] on. *)
Definition aliased_chain (i : nid) : expr :=
  Call i (Attribute (i + 1)
            (Call (i + 2) (Attribute (i + 3) (Name (i + 4) "b") "client")
                  [Str (i + 5) "s3"] [] None None)
            "list_objects") [] [] None None.

(** <<
import os
import boto3 as b
b.client('s3').list_objects()
>> *)
Definition aliased_after_os_ast : py_mod :=
  PyModule 0
    ([ Import 1 [{| alias_name := "os"; alias_asname := None |}] ]
       ++ Import 2 [boto3_as_b] :: [ Expr 3 (aliased_chain 4) ]).

Definition aliased_after_os_table : scope :=
  Scope "top" (<["os" := false]> {["b" := false]}) [].

(** <<
def helper():
    import boto3 as b
    b.client('s3').list_objects()
>> *)
Definition aliased_in_function_ast : py_mod :=
  PyModule 0
    [ FunctionDef 1 "helper" [] []
        [ Import 2 [boto3_as_b]; Expr 3 (aliased_chain 4) ] [] ].

Definition aliased_in_function_table : scope :=
  Scope "top" {["helper" := false]} [Scope "helper" {["b" := false]} []].

(** <<
def helper():
    import boto3 as b
    b.client('s3').list_objects()
helper()
>> *)
Definition aliased_in_called_function_ast : py_mod :=
  PyModule 0
    [ FunctionDef 1 "helper" [] []
        [ Import 2 [boto3_as_b]; Expr 3 (aliased_chain 4) ] [];
      Expr 10 (Call 11 (Name 12 "helper") [] [] None None) ].

(** <<
import boto3
c = boto3.client('s3')
c = x
c.get_object()
>> *)
Definition rebound_ast : py_mod :=
  PyModule 0
    [ Import 1 [boto3_alias];
      Assign 2 [Name 3 "c"] (client_of 4 5 6 (Str 7 "s3"));
      Assign 8 [Name 9 "c"] (Name 10 "x");
      Expr 11 (Call 12 (Attribute 13 (Name 14 "c") "get_object") [] []
                    None None) ].

Definition rebound_table : scope :=
  Scope "top" (<["boto3" := false]> (<["c" := false]> {["x" := true]})) [].

(** The engine at the top of a module. *)
Definition top_engine (parsed : py_mod) (table : scope)
  : SymbolTableTypeInfer :=
  {| _symbol_table := symbol_table (parse_code parsed table);
     _current_ast_namespace := NMod parsed |}.

(** <<
import boto3
def pick():
    return boto3.client('s3')
    return boto3.client('ec2')
c = pick()
c.describe_instances()
>> *)
Definition two_returns_ast : py_mod :=
  PyModule 0
    [ Import 1 [boto3_alias];
      FunctionDef 2 "pick" [] []
        [ Return 3 (Some (client_of 4 5 6 (Str 7 "s3")));
          Return 8 (Some (client_of 9 10 11 (Str 12 "ec2"))) ] [];
      Assign 13 [Name 14 "c"] (Call 15 (Name 16 "pick") [] [] None None);
      Expr 17 (Call 18 (Attribute 19 (Name 20 "c") "describe_instances") [] []
                    None None) ].

Definition two_returns_table : scope :=
  Scope "top" (<["boto3" := false]> (<["pick" := false]> {["c" := false]}))
    [Scope "pick" {["boto3" := true]} []].

(** <<
import boto3
boto3.client(x, 's3')
>> *)
Definition second_argument_call : expr :=
  Call 3 (Attribute 4 (Name 5 "boto3") "client")
       [Name 6 "x"; Str 7 "s3"] [] None None.

Definition second_argument_ast : py_mod :=
  PyModule 0 [ Import 1 [boto3_alias]; Expr 2 second_argument_call ].

Definition second_argument_table : scope :=
  Scope "top" (<["boto3" := false]> {["x" := true]}) [].

(** <<
import boto3
def get(name):
    boto3.client(name).get_object()
get(x)
>> *)
Definition parameter_service_ast : py_mod :=
  PyModule 0
    [ Import 1 [boto3_alias];
      FunctionDef 2 "get" [Name 3 "name"] []
        [ Expr 4 (Call 5 (Attribute 6 (client_of 7 8 9 (Name 10 "name"))
                                    "get_object") [] [] None None) ] [];
      Expr 11 (Call 12 (Name 13 "get") [Name 14 "x"] [] None None) ].

Definition parameter_service_table : scope :=
  Scope "top" (<["boto3" := false]> (<["get" := false]> {["x" := true]}))
    [Scope "get" (<["boto3" := true]> {["name" := false]}) []].

(** <<
import boto3
boto3.client(x).<method>()
>> *)
Definition unbound_service_ast (method : string) : py_mod :=
  PyModule 0
    [ Import 1 [boto3_alias];
      Expr 2 (Call 3 (Attribute 4 (client_of 5 6 7 (Name 8 "x")) method)
                   [] [] None None) ].

(** <<
import boto3
boto3.client(<a> + <b>).<method>()
>> *)
Definition computed_service_ast (a b method : string) : py_mod :=
  PyModule 0
    [ Import 1 [boto3_alias];
      Expr 2 (Call 3 (Attribute 4
                        (client_of 5 6 7 (OtherExpr 8 [Str 9 a; Str 10 b]))
                        method)
                   [] [] None None) ].

Definition computed_service_table : scope :=
  Scope "top" {["boto3" := false]} [].

(** <<
import boto3
def get(name):
    boto3.client(name).<method>()
get(x)
>> *)
Definition parameter_method_ast (method : string) : py_mod :=
  PyModule 0
    [ Import 1 [boto3_alias];
      FunctionDef 2 "get" [Name 3 "name"] []
        [ Expr 4 (Call 5 (Attribute 6 (client_of 7 8 9 (Name 10 "name"))
                                    method) [] [] None None) ] [];
      Expr 11 (Call 12 (Name 13 "get") [Name 14 "x"] [] None None) ].

(** The store once [import boto3] ran at the top of a module. *)
Definition sdk_imported : state :=
  {| node_types := [];
     symbol_types := {[ ([], "boto3") := Some Boto3ModuleType ]};
     symbol_nodes := ∅ |}.


(** <<
import boto3
r = boto3.client('s3').list_objects()
>> *)
Definition assigned_result_ast : py_mod :=
  PyModule 0
    [ Import 1 [boto3_alias];
      Assign 2 [Name 3 "r"]
        (Call 4 (Attribute 5 (client_of 6 7 8 (Str 9 "s3")) "list_objects")
              [] [] None None) ].

Definition assigned_result_table : scope :=
  Scope "top" (<["boto3" := false]> {["r" := false]}) [].

(** <<
import boto3
from chalice import Chalice
app = Chalice(app_name='demo')
@app.route('/')
def index():
    boto3.client('s3').list_objects()
>> *)
Definition view_ast : py_mod :=
  PyModule 0
    [ Import 1 [boto3_alias];
      OtherStmt 2 [];
      Assign 3 [Name 4 "app"]
        (Call 5 (Name 6 "Chalice") [] [("app_name", Str 7 "demo")] None None);
      FunctionDef 8 "index" [] []
        [ Expr 9 (Call 10 (Attribute 11 (client_of 12 13 14 (Str 15 "s3"))
                                     "list_objects") [] [] None None) ]
        [ Call 16 (Attribute 17 (Name 18 "app") "route") [Str 19 "/"] []
               None None ] ].

Definition view_table : scope :=
  Scope "top"
    (<["boto3" := false]>
       (<["Chalice" := false]> (<["app" := false]> {["index" := false]})))
    [Scope "index" {["boto3" := true]} []].

(** <<
import boto3
index = boto3.client('s3').list_objects
@app.route('/')
def index():
    pass
>> *)
Definition rebound_view_ast : py_mod :=
  PyModule 0
    [ Import 1 [boto3_alias];
      Assign 2 [Name 3 "index"]
        (Attribute 4 (client_of 5 6 7 (Str 8 "s3")) "list_objects");
      FunctionDef 9 "index" [] [] [OtherStmt 10 []]
        [ Call 11 (Attribute 12 (Name 13 "app") "route") [Str 14 "/"] []
               None None ] ].

Definition rebound_view_table : scope :=
  Scope "top"
    (<["boto3" := false]> (<["index" := false]> {["app" := true]}))
    [Scope "index" ∅ []].



(** <<
def outer():
    @app.route('/')
    def view():
        pass
>> *)
Definition nested_view_ast : py_mod :=
  PyModule 0
    [ FunctionDef 1 "outer" [] []
        [ FunctionDef 2 "view" [] [] [OtherStmt 3 []]
            [ Call 4 (Attribute 5 (Name 6 "app") "route") [Str 7 "/"] []
                   None None ] ]
        [] ].

(** ** Further notions and samples *)

(** The (service, method) pairs of the invocation-typed nodes under [n], in
    the order the collector meets them. *)
Definition invocations (st : state) (n : node) : list (string * string) :=
  omap (fun x =>
          match node_inferred_type st (node_id x) with
          | Some (Boto3ClientMethodCallType s m) => Some (s, m)
          | _ => None
          end)
       (walk n).

(** <<
import boto3
boto3.client(<service>).<method>()
>> *)
Definition one_shot_ast (service method : string) : py_mod :=
  PyModule 0
    [ Import 1 [boto3_alias];
      Expr 2 (Call 3 (Attribute 4 (client_of 5 6 7 (Str 8 service)) method)
                   [] [] None None) ].

Definition sdk_only_table : scope := Scope "top" {["boto3" := false]} [].

(** <<
import boto3
client = boto3.client(<service>)
client.<method>()
>> *)
Definition direct_chain_ast (service method : string) : py_mod :=
  PyModule 0
    [ Import 1 [boto3_alias];
      Assign 2 [Name 3 "client"] (client_of 4 5 6 (Str 7 service));
      Expr 8 (Call 9 (Attribute 10 (Name 11 "client") method) [] []
                   None None) ].

Definition direct_chain_table : scope :=
  Scope "top" (<["boto3" := false]> {["client" := false]}) [].

(** <<
import boto3
def top():
    boto3.client(<service>).<method>()
>> *)
Definition function_named_top_ast (service method : string) : py_mod :=
  PyModule 0
    [ Import 1 [boto3_alias];
      FunctionDef 2 "top" [] []
        [ Expr 3 (Call 4 (Attribute 5 (client_of 6 7 8 (Str 9 service)) method)
                       [] [] None None) ] [] ].

Definition function_named_top_table : scope :=
  Scope "top" (<["boto3" := false]> {["top" := false]})
    [Scope "top" {["boto3" := true]} []].

(** A statement that only defines: a class, or a function declared in the
    scope under a name other than the scope's own. *)
Definition only_defines (table : scope) (s : stmt) : Prop :=
  match s with
  | ClassDef _ _ _ _ _ => True
  | FunctionDef _ name _ _ _ _ =>
      name <> scope_name table /\ is_Some (scope_symbols table !! name)
  | _ => False
  end.

(** No definition the transformer visits is decorated as a view. *)
Fixpoint no_view (s : stmt) : bool :=
  match s with
  | FunctionDef _ _ _ _ _ decorator_list =>
      negb (_is_chalice_view decorator_list)
  | ClassDef _ _ _ body _ => forallb no_view body
  | OtherStmt _ children =>
      forallb (fun c => match c with
                        | inl _ => true
                        | inr s' => no_view s'
                        end) children
  | _ => true
  end.

(** <<
def loop():
    loop()
loop()
>> *)
Definition self_call_def : stmt :=
  FunctionDef 1 "loop" [] []
    [Expr 2 (Call 3 (Name 4 "loop") [] [] None None)] [].

Definition self_call_ast : py_mod :=
  PyModule 0 [ self_call_def;
               Expr 5 (Call 6 (Name 7 "loop") [] [] None None) ].

Definition self_call_table : scope :=
  Scope "top" {["loop" := false]} [Scope "loop" {["loop" := true]} []].

(** <<
import boto3
f = lambda <args>: <body>
f()
>> *)
Definition lambda_ast (args defaults : list expr) (body : expr) : py_mod :=
  PyModule 0
    [ Import 1 [boto3_alias];
      Assign 2 [Name 3 "f"] (Lambda 4 args defaults body);
      Expr 5 (Call 6 (Name 7 "f") [] [] None None) ].

Definition lambda_table : scope :=
  Scope "top" (<["boto3" := false]> {["f" := false]}) [].

(** The node is no function definition. *)
Definition not_a_definition (n : node) : Prop :=
  match n with
  | NStmt (FunctionDef _ _ _ _ _ _) => False
  | _ => True
  end.

(** The run ended within its fuel, and left no definition registered if it
    completed. *)
Definition finishes (r : result state) : Prop :=
  r <> OutOfFuel /\ forall st', r = Ok st' -> symbol_nodes st' = ∅.

(** * Properties *)

(** ** The result monad and the loop *)

Lemma bind_Ok {A B} (m : result A) (k : A -> result B) (b : B) :
  m ≫= k = Ok b <-> exists a, m = Ok a /\ k a = Ok b.
Proof.
  destruct m; simpl; split; try (intros [? [? ?]]); try discriminate; eauto.
  intros. simplify_eq. done.
Qed.

Lemma for_each_app {A S} (f : S -> A -> result S) st l1 l2 :
  for_each f st (l1 ++ l2) = st' ← for_each f st l1; for_each f st' l2.
Proof.
  revert st. induction l1 as [|x l1 IH]; intros st; simpl; [done|].
  destruct (f st x); simpl; auto.
Qed.

Lemma refines_refl {A} (r : result A) : refines r r.
Proof. by right. Qed.

Lemma refines_bind {A B} (m1 m2 : result A) (k1 k2 : A -> result B) :
  refines m1 m2 -> (forall a, refines (k1 a) (k2 a)) ->
  refines (m1 ≫= k1) (m2 ≫= k2).
Proof.
  intros [-> | ->] Hk; [by left|].
  destruct m2; simpl; [apply Hk | by right | by right].
Qed.

Lemma refines_for_each {A S} (f g : S -> A -> result S) st l :
  (forall st x, refines (f st x) (g st x)) ->
  refines (for_each f st l) (for_each g st l).
Proof.
  intros Hfg. revert st. induction l as [|x l IH]; intros st; simpl.
  - apply refines_refl.
  - apply refines_bind; auto.
Qed.

Ltac refines_step :=
  first
    [ apply refines_refl
    | apply refines_bind
    | apply refines_for_each
    | progress intros
    | match goal with
      | |- refines (match ?x with _ => _ end) _ => destruct x
      | |- refines (if ?x then _ else _) _ => destruct x
      | |- refines (let '(_, _) := ?x in _) _ => destruct x
      end ].

(** ** More fuel never changes a finished run *)

Section Monotone.
Variables visit1 visit2 : SymbolTableTypeInfer -> state -> node -> result state.
Hypothesis visit_refines :
  forall self st n, refines (visit1 self st n) (visit2 self st n).

Lemma visit_node_refines self st n :
  refines (visit_node visit1 self st n) (visit_node visit2 self st n).
Proof using visit_refines.
  destruct n as [m | s | e]; [| destruct s | destruct e]; simpl;
    unfold generic_visit, visit_Import, visit_Name, visit_Assign,
      visit_Attribute, visit_Call, visit_Lambda, visit_FunctionDef,
      visit_ClassDef, visit_Return, _infer_function_call, bind_types,
      generic_visit;
    repeat refines_step; auto.
Qed.
End Monotone.

Lemma visit_fuel_mono (fuel fuel' : nat) self st n :
  fuel <= fuel' -> refines (visit fuel self st n) (visit fuel' self st n).
Proof.
  revert fuel' self st n.
  induction fuel as [|fuel IH]; intros fuel' self st n Hle; [by left|].
  destruct fuel' as [|fuel']; [lia|]. simpl.
  apply visit_node_refines. intros. apply IH. lia.
Qed.

Lemma visit_fuel_Ok (fuel fuel' : nat) self st n st' :
  visit fuel self st n = Ok st' -> fuel <= fuel' ->
  visit fuel' self st n = Ok st'.
Proof.
  intros H Hle. destruct (visit_fuel_mono fuel fuel' self st n Hle); congruence.
Qed.

Lemma visit_fuel_Raise (fuel fuel' : nat) self st n e :
  visit fuel self st n = Raise e -> fuel <= fuel' ->
  visit fuel' self st n = Raise e.
Proof.
  intros H Hle. destruct (visit_fuel_mono fuel fuel' self st n Hle); congruence.
Qed.

(** ** The collector *)

Lemma final_state_Ok (r : result state) :
  is_Ok r = true -> r = Ok (final_state r).
Proof. by destruct r. Qed.

Lemma collector_visit_elem st api_calls n s ms m :
  collector_visit st api_calls n !! s = Some ms -> m ∈ ms ->
  (exists ms0, api_calls !! s = Some ms0 /\ m ∈ ms0) \/
  node_inferred_type st (node_id n) = Some (Boto3ClientMethodCallType s m).
Proof.
  unfold collector_visit, add_api_call. intros Hs Hm.
  destruct (node_inferred_type st (node_id n)) as [[]|]; eauto.
  destruct (decide (service_name = s)) as [-> | Hne].
  - rewrite lookup_insert_eq in Hs. simplify_eq.
    apply elem_of_union in Hm as [Hm | Hm].
    + apply elem_of_singleton in Hm as ->. by right.
    + left. destruct (api_calls !! s) as [ms0|]; simpl in Hm; [eauto|].
      by apply not_elem_of_empty in Hm.
  - rewrite lookup_insert_ne in Hs by done. eauto.
Qed.

Lemma collected_from_node st l :
  forall api_calls s ms m,
    foldl (collector_visit st) api_calls l !! s = Some ms -> m ∈ ms ->
    (exists ms0, api_calls !! s = Some ms0 /\ m ∈ ms0) \/
    exists n, n ∈ l /\
      node_inferred_type st (node_id n)
      = Some (Boto3ClientMethodCallType s m).
Proof.
  induction l as [|x l IH]; intros api_calls s ms m Hs Hm; simpl in Hs.
  - eauto.
  - destruct (IH _ _ _ _ Hs Hm) as [(ms0 & Hs0 & Hm0) | (n & Hn & Hty)].
    + destruct (collector_visit_elem _ _ _ _ _ _ Hs0 Hm0) as [? | Hx]; auto.
      right. exists x. split; [by left | exact Hx].
    + right. exists n. split; [by right | exact Hty].
Qed.

Lemma collect_api_calls_pairs st n :
  collect_api_calls st n
  = foldl (fun acc p => add_api_call acc p.1 p.2) ∅ (invocations st n).
Proof.
  unfold collect_api_calls, invocations. generalize (∅ : gmap string (gset string)).
  induction (walk n) as [|x l IH]; intros acc; [done|].
  cbn [foldl omap list_omap]. rewrite IH. unfold collector_visit.
  by destruct (node_inferred_type st (node_id x)) as [[]|].
Qed.

Lemma add_api_call_empty s m : add_api_call ∅ s m = {[ s := {[ m ]} ]}.
Proof.
  unfold add_api_call. rewrite lookup_empty. simpl.
  by rewrite union_empty_r_L, insert_empty.
Qed.

Lemma add_api_call_new api_calls s m :
  exists ms, add_api_call api_calls s m !! s = Some ms /\ m ∈ ms.
Proof.
  unfold add_api_call. eexists. rewrite lookup_insert_eq.
  split; [reflexivity|]. apply elem_of_union_l. by apply elem_of_singleton.
Qed.

Lemma add_api_call_keeps api_calls s' m' s m :
  (exists ms, api_calls !! s = Some ms /\ m ∈ ms) ->
  exists ms, add_api_call api_calls s' m' !! s = Some ms /\ m ∈ ms.
Proof.
  intros (ms & Hs & Hm). unfold add_api_call.
  destruct (decide (s' = s)) as [-> | Hne].
  - eexists. rewrite lookup_insert_eq. split; [reflexivity|].
    rewrite Hs. simpl. by apply elem_of_union_r.
  - exists ms. by rewrite lookup_insert_ne.
Qed.

Lemma collector_keeps st l s m :
  forall api_calls,
    (exists ms, api_calls !! s = Some ms /\ m ∈ ms) ->
    exists ms, foldl (collector_visit st) api_calls l !! s = Some ms /\ m ∈ ms.
Proof.
  induction l as [|x l IH]; intros api_calls Hin; [done|].
  simpl. apply IH. unfold collector_visit.
  destruct (node_inferred_type st (node_id x)) as [[]|]; auto.
  by apply add_api_call_keeps.
Qed.


Lemma get_client_calls_of_invocations fuel parsed table pairs :
  is_Ok (bind_types (visit fuel) empty_state (parse_code parsed table)) = true ->
  invocations
    (final_state (bind_types (visit fuel) empty_state (parse_code parsed table)))
    (NMod parsed) = pairs ->
  get_client_calls fuel parsed table
  = Ok (foldl (fun acc p => add_api_call acc p.1 p.2) ∅ pairs).
Proof.
  intros Hok Hpairs. unfold get_client_calls.
  rewrite (final_state_Ok _ Hok). cbn [mbind result_bind parse_code parsed_ast].
  by rewrite collect_api_calls_pairs, Hpairs.
Qed.

Lemma invocations_no_annotations st n :
  node_types st = [] -> invocations st n = [].
Proof.
  intros Hlog. unfold invocations, node_inferred_type. rewrite Hlog.
  induction (walk n) as [|x l IH]; [done|]. cbn [omap list_omap log_lookup].
  exact IH.
Qed.

Lemma invocations_untyped st n :
  Forall (fun e => e.2 = None) (node_types st) -> invocations st n = [].
Proof.
  intros Hlog. unfold invocations.
  assert (Hnone : forall i, node_inferred_type st i = None).
  { intros i. unfold node_inferred_type.
    induction Hlog as [|[j t] l Ht _ IH]; [done|]. simpl in *.
    by case_decide. }
  induction (walk n) as [|x l IH]; [done|].
  cbn [omap list_omap]. by rewrite Hnone.
Qed.

Lemma get_client_calls_module fuel i body table :
  get_client_calls (S fuel) (PyModule i body) table
  = st ← for_each (visit fuel (top_engine (PyModule i body) table))
           empty_state (NStmt <$> body);
    Ok (collect_api_calls st (NMod (PyModule i body))).
Proof. reflexivity. Qed.

Lemma visit_S fuel self st n :
  visit (S fuel) self st n = visit_node (visit fuel) self st n.
Proof. reflexivity. Qed.

(** ** Scope-table lookup *)

Lemma get_inferred_type_not_global
  (self : ChainedSymbolTable) (st : state) (name : string) :
  scope_symbols (table_scope (_local_table self)) !! name = Some false ->
  get_inferred_type self st name =
    Ok (symbol_inferred_type st (table_id (_local_table self), name)).
Proof.
  intros Hlocal. unfold get_inferred_type, lookup. by rewrite Hlocal.
Qed.

(** C6: for a name the local scope declares, [get_inferred_type] returns the
    type recorded locally (possibly none) when the name is not marked global;
    when it is marked global, it returns the type recorded in the global
    scope if that scope declares the name and "no type" otherwise, without an
    error and without consulting any further scope. *)
Theorem get_inferred_type_local_then_global
  (self : ChainedSymbolTable) (st : state) (name : string) (g : bool) :
  scope_symbols (table_scope (_local_table self)) !! name = Some g ->
  get_inferred_type self st name =
    Ok (if g
        then match scope_symbols (table_scope (_global_table self)) !! name with
             | Some _ =>
                 symbol_inferred_type st (table_id (_global_table self), name)
             | None => None
             end
        else symbol_inferred_type st (table_id (_local_table self), name)).
Proof.
  intros Hlocal. unfold get_inferred_type, lookup. rewrite Hlocal. simpl.
  destruct g; [|done].
  by destruct (scope_symbols (table_scope (_global_table self)) !! name).
Qed.

(** Inside [make] of the interprocedural sample, [boto3] is a global name:
    its type is the one the module scope records. *)
Lemma get_inferred_type_local_then_global_witness :
  let top := {| table_id := []; table_scope := interprocedural_table |} in
  let make := {| table_id := [0]; table_scope := Scope "make" {["boto3" := true]} [] |} in
  let st := {| node_types := [];
               symbol_types := {[ ([], "boto3") := Some Boto3ModuleType ]};
               symbol_nodes := ∅ |} in
  get_inferred_type {| _local_table := make; _global_table := top |} st "boto3"
  = Ok (Some Boto3ModuleType).
Proof.
  intros top make st.
  rewrite (get_inferred_type_local_then_global _ st "boto3" true);
    reflexivity.
Defined.

(** ** Independence of the recursion depth allowed *)

Lemma get_client_calls_fuel_mono fuel fuel' parsed table :
  fuel <= fuel' ->
  refines (get_client_calls fuel parsed table)
          (get_client_calls fuel' parsed table).
Proof.
  intros Hle. unfold get_client_calls, bind_types.
  apply refines_bind; [|intros; apply refines_refl].
  by apply visit_fuel_mono.
Qed.

(** The recursion depth allowed (the fuel of the model) does not show in a
    mapping: two depths under which the analysis of a tree and scope
    hierarchy completes give the same mapping. *)
Lemma get_client_calls_fuel_independent
  (fuel1 fuel2 : nat) (parsed : py_mod) (table : scope)
  (calls1 calls2 : gmap string (gset string)) :
  get_client_calls fuel1 parsed table = Ok calls1 ->
  get_client_calls fuel2 parsed table = Ok calls2 ->
  calls1 = calls2.
Proof.
  intros H1 H2.
  destruct (Nat.le_ge_cases fuel1 fuel2) as [Hle | Hle];
    destruct (get_client_calls_fuel_mono _ _ parsed table Hle); congruence.
Qed.

(** ** Importing the SDK under another name *)

Lemma visit_Import_undeclared self st names :
  scope_symbols (table_scope (_local_table (_symbol_table self))) !! _SDK_PACKAGE
    = None ->
  Exists (fun a => alias_name a = _SDK_PACKAGE) names ->
  visit_Import self st names = Raise (KeyError _SDK_PACKAGE).
Proof.
  intros Hnone Hex. unfold visit_Import. revert st.
  induction Hex as [a names Ha | a names Hex IH]; intros st; simpl.
  - rewrite Ha. simpl. unfold set_inferred_type, lookup. by rewrite Hnone.
  - destruct (String.eqb_spec (alias_name a) _SDK_PACKAGE) as [-> | _].
    + unfold set_inferred_type, lookup. by rewrite Hnone.
    + simpl. apply IH.
Qed.

(** An import of the SDK under an alias that sits in a function nobody calls
    is never visited: the analysis completes, with the empty mapping. *)
Lemma aliased_import_anywhere_aborts_fails : ~ aliased_import_anywhere_aborts.
Proof.
  intros Habort.
  apply (Habort 5 aliased_in_function_ast aliased_in_function_table
           2 [boto3_as_b] ∅).
  - apply list_elem_of_In. simpl. auto.
  - apply Exists_cons_hd. reflexivity.
  - reflexivity.
  - reflexivity.
Qed.

(** C9 (amended): the aliased import is fatal where the engine visits it.
    Whenever the engine visits an import statement that names the SDK
    package [boto3] (as in [import boto3 as b]) in a scope that declares no
    symbol [boto3] (only the alias is bound), setting the type of ['boto3']
    raises [KeyError]; the loop over a list of statements raises it as soon
    as the statements before the import are analysed; and when the import
    stands among the statements of the module, the whole analysis aborts
    with that [KeyError], whatever precedes and follows. *)
Theorem aliased_sdk_import_aborts :
  (forall fuel self st j names,
     scope_symbols (table_scope (_local_table (_symbol_table self))) !! "boto3"
       = None ->
     Exists (fun a => alias_name a = "boto3") names ->
     visit (S fuel) self st (NStmt (Import j names))
     = Raise (KeyError "boto3")) /\
  (forall fuel self st st1 pre j names post,
     scope_symbols (table_scope (_local_table (_symbol_table self))) !! "boto3"
       = None ->
     Exists (fun a => alias_name a = "boto3") names ->
     for_each (visit (S fuel) self) st (NStmt <$> pre) = Ok st1 ->
     for_each (visit (S fuel) self) st
       (NStmt <$> (pre ++ Import j names :: post))
     = Raise (KeyError "boto3")) /\
  (forall fuel i pre j names post table st1,
     let parsed := PyModule i (pre ++ Import j names :: post) in
     scope_symbols table !! "boto3" = None ->
     Exists (fun a => alias_name a = "boto3") names ->
     for_each (visit (S fuel) (top_engine parsed table)) empty_state
       (NStmt <$> pre) = Ok st1 ->
     get_client_calls (S (S fuel)) parsed table = Raise (KeyError "boto3")).
Proof.
  assert (Hvisit : forall fuel self st j names,
            scope_symbols (table_scope (_local_table (_symbol_table self)))
              !! "boto3" = None ->
            Exists (fun a => alias_name a = "boto3") names ->
            visit (S fuel) self st (NStmt (Import j names))
            = Raise (KeyError "boto3")).
  { intros fuel self st j names Hnone Hex. rewrite visit_S. cbn [visit_node].
    by apply visit_Import_undeclared. }
  assert (Hloop : forall fuel self st st1 pre j names post,
            scope_symbols (table_scope (_local_table (_symbol_table self)))
              !! "boto3" = None ->
            Exists (fun a => alias_name a = "boto3") names ->
            for_each (visit (S fuel) self) st (NStmt <$> pre) = Ok st1 ->
            for_each (visit (S fuel) self) st
              (NStmt <$> (pre ++ Import j names :: post))
            = Raise (KeyError "boto3")).
  { intros fuel self st st1 pre j names post Hnone Hex Hpre.
    rewrite fmap_app, for_each_app, Hpre.
    cbn [mbind result_bind fmap list_fmap for_each].
    by rewrite (Hvisit fuel self st1 j names Hnone Hex). }
  split_and!; [exact Hvisit | exact Hloop |].
  intros fuel i pre j names post table st1 parsed Hnone Hex Hpre.
  unfold parsed. rewrite get_client_calls_module. fold parsed.
  by rewrite (Hloop fuel (top_engine parsed table) empty_state st1 pre j names
                post Hnone Hex Hpre).
Qed.

Lemma aliased_sdk_import_aborts_witness :
  get_client_calls 10 aliased_after_os_ast aliased_after_os_table
  = Raise (KeyError "boto3").
Proof.
  destruct aliased_sdk_import_aborts as (_ & _ & Hmodule).
  apply (Hmodule 8 0
           [Import 1 [{| alias_name := "os"; alias_asname := None |}]]
           2 [boto3_as_b] [Expr 3 (aliased_chain 4)] aliased_after_os_table
           empty_state).
  - reflexivity.
  - apply Exists_cons_hd. reflexivity.
  - reflexivity.
Defined.

(** The import at the head of the module, and the import inside a function
    that the module calls, abort the analysis alike. *)
Example aliased_import_first_aborts :
  get_client_calls 10 aliased_import_ast aliased_import_table
  = Raise (KeyError "boto3").
Proof. reflexivity. Qed.

Example aliased_import_in_called_function_aborts :
  get_client_calls 10 aliased_in_called_function_ast aliased_in_function_table
  = Raise (KeyError "boto3").
Proof. reflexivity. Qed.

Lemma get_client_calls_enough_fuel fuel fuel' parsed table calls :
  get_client_calls fuel parsed table = Ok calls -> fuel <= fuel' ->
  get_client_calls fuel' parsed table = Ok calls.
Proof.
  intros H Hle.
  destruct (get_client_calls_fuel_mono _ _ parsed table Hle); congruence.
Qed.

(** ** Assignment *)

Section AssignLoop.
Variable tbl : ChainedSymbolTable.
Variable rhs : option ty.

Let assign_target (st : state) (t : expr) : result state :=
  match t with
  | Name ti tid =>
      st ← set_inferred_type tbl st tid rhs;
      Ok (set_node_inferred_type st ti rhs)
  | _ => Ok st
  end.

Lemma assign_loop_records targets st st' :
  for_each assign_target st targets = Ok st' ->
  (forall k, symbol_types st !! k = Some rhs ->
             symbol_types st' !! k = Some rhs) /\
  (forall j, node_inferred_type st j = rhs ->
             node_inferred_type st' j = rhs) /\
  (forall ti tid, Name ti tid ∈ targets ->
     symbol_types st' !! (table_id (_local_table tbl), tid) = Some rhs /\
     node_inferred_type st' ti = rhs).
Proof.
  revert st. induction targets as [|t targets IH]; intros st Hrun.
  - simpl in Hrun. simplify_eq. split_and!; auto.
    intros ti tid Hin. by apply elem_of_nil in Hin.
  - simpl in Hrun. apply bind_Ok in Hrun as (st1 & Ht & Hrest).
    destruct (IH _ Hrest) as (Hsym & Hnode & Htargets).
    assert (Hstep_sym : forall k, symbol_types st !! k = Some rhs ->
                                  symbol_types st1 !! k = Some rhs).
    { intros k Hk. destruct t; simpl in Ht; simplify_eq; auto.
      apply bind_Ok in Ht as (st2 & Hset & ?). simplify_eq.
      unfold set_inferred_type in Hset.
      apply bind_Ok in Hset as (? & _ & ?). simplify_eq. simpl.
      destruct (decide ((table_id (_local_table tbl), id) = k)) as [<-|Hne].
      - by rewrite lookup_insert_eq.
      - by rewrite lookup_insert_ne. }
    assert (Hstep_node : forall j, node_inferred_type st j = rhs ->
                                   node_inferred_type st1 j = rhs).
    { intros j Hj. destruct t; simpl in Ht; simplify_eq; auto.
      apply bind_Ok in Ht as (st2 & Hset & ?). simplify_eq.
      unfold set_inferred_type in Hset.
      apply bind_Ok in Hset as (? & _ & ?). simplify_eq.
      unfold node_inferred_type in *. simpl. by case_decide. }
    split_and!; auto.
    intros ti tid Hin. apply elem_of_cons in Hin as [<- | Hin]; auto.
    simpl in Ht. apply bind_Ok in Ht as (st2 & Hset & ?). simplify_eq.
    unfold set_inferred_type in Hset.
    apply bind_Ok in Hset as (? & _ & ?). simplify_eq. split.
    + apply Hsym. simpl. by rewrite lookup_insert_eq.
    + apply Hnode. unfold node_inferred_type. simpl. by case_decide.
Qed.

Lemma assign_loop_completes targets st :
  (forall ti tid, Name ti tid ∈ targets ->
     is_Some (scope_symbols (table_scope (_local_table tbl)) !! tid)) ->
  exists st', for_each assign_target st targets = Ok st'.
Proof.
  revert st. induction targets as [|t targets IH]; intros st Hdecl; simpl.
  - eauto.
  - assert (exists st1, assign_target st t = Ok st1) as [st1 Ht].
    { destruct t; simpl; eauto.
      destruct (Hdecl i id) as [g Hg]; [by left|].
      unfold set_inferred_type, lookup. rewrite Hg. simpl. eauto. }
    rewrite Ht. simpl. apply IH. intros ti tid Hin.
    apply (Hdecl ti tid). by right.
Qed.
End AssignLoop.



(** Rebinding the client variable to an untyped value hides the later call. *)
Example rebound_client_yields_nothing :
  get_client_calls 8 rebound_ast rebound_table = Ok ∅.
Proof. reflexivity. Qed.

(** ** Return *)



(** Of the two returns of [pick], the second decides the type of [c]. *)
Example two_returns_second_wins :
  get_client_calls 8 two_returns_ast two_returns_table
  = Ok {[ "ec2" := {[ "describe_instances" ]} ]}.
Proof. reflexivity. Qed.

(** ** A literal that flows through a variable *)

(** C2: the program [name = 's3'; client = boto3.client(name);
    client.get_object()] (after [import boto3]) yields the mapping
    [{"s3": {"get_object"}}] whenever the recursion depth allowed is at least
    8.  In general, (1) assigning a string literal [v] records
    [StringLiteral v] for every simple-name target, on the scope symbol and
    on the target node, and (2) a client-factory call whose first argument
    is a name typed [StringLiteral v] types the call node
    [Boto3ClientType v], exactly as the call with the literal [v] in that
    place does. *)
Theorem literal_flows_through_variable :
  (forall fuel, 8 <= fuel ->
     get_client_calls fuel literal_variable_ast literal_variable_table
     = Ok {[ "s3" := {[ "get_object" ]} ]}) /\
  (forall visit self st st1 i targets vi v,
     generic_visit visit self st (NStmt (Assign i targets (Str vi v)))
       = Ok st1 ->
     node_inferred_type st1 vi = None \/
       node_inferred_type st1 vi = Some (StringLiteral v) ->
     (forall ti tid, Name ti tid ∈ targets ->
        is_Some (scope_symbols
                   (table_scope (_local_table (_symbol_table self))) !! tid)) ->
     exists st',
       visit_Assign visit self st i targets (Str vi v) = Ok st' /\
       forall ti tid, Name ti tid ∈ targets ->
         symbol_types st'
           !! (table_id (_local_table (_symbol_table self)), tid)
           = Some (Some (StringLiteral v)) /\
         node_inferred_type st' ti = Some (StringLiteral v)) /\
  (forall visit self st st1 i func j x rest keywords starargs kwargs v,
     generic_visit visit self st
       (NExpr (Call i func (Name j x :: rest) keywords starargs kwargs))
       = Ok st1 ->
     node_inferred_type st1 (expr_id func) = Some Boto3CreateClientType ->
     node_inferred_type st1 j = Some (StringLiteral v) ->
     visit_Call visit self st i func (Name j x :: rest) keywords starargs
                kwargs
       = Ok (set_node_inferred_type st1 i (Some (Boto3ClientType v))) /\
     forall st0 st2 j',
       generic_visit visit self st0
         (NExpr (Call i func (Str j' v :: rest) keywords starargs kwargs))
         = Ok st2 ->
       node_inferred_type st2 (expr_id func) = Some Boto3CreateClientType ->
       visit_Call visit self st0 i func (Str j' v :: rest) keywords starargs
                  kwargs
         = Ok (set_node_inferred_type st2 i (Some (Boto3ClientType v)))).
Proof.
  split_and!.
  - intros fuel Hfuel.
    apply (get_client_calls_enough_fuel 8); [reflexivity | exact Hfuel].
  - intros visit self st st1 i targets vi v Hgen Hvi Hdecl.
    unfold visit_Assign. rewrite Hgen. cbn [mbind result_bind expr_id].
    set (rhs := Some (StringLiteral v)).
    assert (exists st2,
              match node_inferred_type st1 vi with
              | Some _ => (node_inferred_type st1 vi, st1)
              | None => (rhs, set_node_inferred_type st1 vi rhs)
              end = (rhs, st2)) as [st2 ->].
    { destruct Hvi as [-> | ->]; eauto. }
    destruct (assign_loop_completes (_symbol_table self) rhs targets st2 Hdecl)
      as [st' Hrun].
    exists st'. split; [exact Hrun|].
    intros ti tid Hin.
    destruct (assign_loop_records _ _ _ _ _ Hrun) as (_ & _ & Htargets).
    exact (Htargets ti tid Hin).
  - intros visit self st st1 i func j x rest keywords starargs kwargs v
      Hgen Hfunc Hj.
    split.
    + unfold visit_Call. rewrite Hgen. cbn [mbind result_bind].
      rewrite Hfunc. cbn [eq_Boto3CreateClientType expr_id]. by rewrite Hj.
    + intros st0 st2 j' Hgen' Hfunc'.
      unfold visit_Call. rewrite Hgen'. cbn [mbind result_bind].
      by rewrite Hfunc'.
Qed.

Lemma literal_flows_through_variable_witness :
  let self := top_engine literal_variable_ast literal_variable_table in
  let st :=
    {| node_types := [];
       symbol_types := <[([], "name") := Some (StringLiteral "s3")]>
                         (symbol_types sdk_imported);
       symbol_nodes := ∅ |} in
  get_client_calls 9 literal_variable_ast literal_variable_table
    = Ok {[ "s3" := {[ "get_object" ]} ]} /\
  (exists st',
     visit_Assign (visit 4) self sdk_imported 2 [Name 3 "name"] (Str 4 "s3")
       = Ok st' /\
     symbol_types st' !! ([], "name") = Some (Some (StringLiteral "s3"))) /\
  visit_Call (visit 4) self st 7 (Attribute 8 (Name 9 "boto3") "client")
             [Name 10 "name"] [] None None
    = Ok (set_node_inferred_type
            (set_node_inferred_type
               (set_node_inferred_type
                  (set_node_inferred_type st 9 (Some Boto3ModuleType))
                  8 (Some Boto3CreateClientType))
               10 (Some (StringLiteral "s3")))
            7 (Some (Boto3ClientType "s3"))).
Proof.
  intros self st.
  destruct literal_flows_through_variable as (Hsample & Hassign & Hcall).
  split_and!.
  - apply (Hsample 9). lia.
  - destruct (Hassign (visit 4) self sdk_imported
                (set_node_inferred_type sdk_imported 3 None)
                2 [Name 3 "name"] 4 "s3") as (st' & Hrun & Htargets).
    + reflexivity.
    + left. reflexivity.
    + intros ti tid Hin. apply list_elem_of_singleton in Hin.
      injection Hin as -> ->. vm_compute. eauto.
    + exists st'. split; [exact Hrun|].
      apply (Htargets 3 "name"). by left.
  - apply (Hcall (visit 4) self st); reflexivity.
Defined.

(** ** The interprocedural step *)

Lemma set_inferred_type_Ok self st name t st' :
  set_inferred_type self st name t = Ok st' ->
  node_types st' = node_types st /\
  symbol_nodes st' = symbol_nodes st /\
  symbol_types st'
  = <[(table_id (_local_table self), name) := t]> (symbol_types st).
Proof.
  unfold set_inferred_type. intros H.
  apply bind_Ok in H as (? & _ & ?). by simplify_eq.
Qed.

Lemma set_inferred_type_declared self st name t g :
  scope_symbols (table_scope (_local_table self)) !! name = Some g ->
  set_inferred_type self st name t
  = Ok {| node_types := node_types st;
          symbol_types :=
            <[(table_id (_local_table self), name) := t]> (symbol_types st);
          symbol_nodes := symbol_nodes st |}.
Proof. intros Hg. unfold set_inferred_type, lookup. by rewrite Hg. Qed.



Lemma map_function_params_maps sub di f params defaults body decorator_list :
  forall args st st',
    _map_function_params sub st args
      (FunctionDef di f params defaults body decorator_list) = Ok st' ->
    node_types st' = node_types st /\
    symbol_nodes st' = symbol_nodes st /\
    (forall key,
       (forall k pj pid, params !! k = Some (Name pj pid) ->
                         key <> (table_id (_local_table sub), pid)) ->
       symbol_types st' !! key = symbol_types st !! key) /\
    (distinct_parameters params ->
     forall k arg pj pid t,
       args !! k = Some arg -> params !! k = Some (Name pj pid) ->
       node_inferred_type st (expr_id arg) = Some t ->
       symbol_types st' !! (table_id (_local_table sub), pid)
       = Some (Some t)).
Proof.
  unfold _map_function_params.
  induction params as [|p params IH]; intros args st st' Hrun.
  - rewrite zip_with_nil_r in Hrun. simpl in Hrun. simplify_eq.
    split_and!; auto. intros _ k arg pj pid t _ Hp. by destruct k.
  - destruct args as [|a args]; simpl in Hrun.
    { simplify_eq. split_and!; auto. intros _ k arg pj pid t Ha. by destruct k. }
    apply bind_Ok in Hrun as (st1 & Hstep & Hrest).
    destruct (IH _ _ _ Hrest) as (Hnodes & Hdefs & Hframe & Hmap).
    assert (Hst1 : node_types st1 = node_types st /\
                   symbol_nodes st1 = symbol_nodes st /\
                   (forall key,
                      (forall pj pid, p = Name pj pid ->
                         key <> (table_id (_local_table sub), pid)) ->
                      symbol_types st1 !! key = symbol_types st !! key) /\
                   (forall pj pid t, p = Name pj pid ->
                      node_inferred_type st (expr_id a) = Some t ->
                      symbol_types st1 !! (table_id (_local_table sub), pid)
                      = Some (Some t))).
    { destruct (node_inferred_type st (expr_id a)) as [ta|] eqn:Hta.
      - destruct p; try discriminate.
        apply set_inferred_type_Ok in Hstep as (Hn & Hd & Hs).
        rewrite Hs. split_and!; auto.
        + intros key Hkey. rewrite lookup_insert_ne; [done|].
          intros <-. by eapply Hkey.
        + intros pj pid t ? ?. simplify_eq. by rewrite lookup_insert_eq.
      - simplify_eq. split_and!; auto. intros; discriminate. }
    destruct Hst1 as (Hnodes1 & Hdefs1 & Hframe1 & Hmap1).
    split_and!; [congruence | congruence | |].
    + intros key Hkey. rewrite Hframe.
      * apply Hframe1. intros pj pid ->. by apply (Hkey 0 pj pid).
      * intros k pj pid Hk. by apply (Hkey (S k) pj pid).
    + intros Hdistinct k arg pj pid t Harg Hparam Hty.
      destruct k as [|k]; simpl in Harg, Hparam; simplify_eq.
      * rewrite Hframe; [by eapply Hmap1|].
        intros k pj' pid' Hk Heq. simplify_eq.
        by specialize (Hdistinct 0 (S k) pj pj' pid' eq_refl Hk).
      * eapply Hmap; eauto.
        -- intros k1 k2 pj1 pj2 pid' H1 H2.
           specialize (Hdistinct (S k1) (S k2) pj1 pj2 pid' H1 H2). lia.
        -- unfold node_inferred_type in *. by rewrite Hnodes1.
Qed.




(** ** Where invocation types come from *)

Lemma walk_fmap_expr l : flat_map walk (NExpr <$> l) = flat_map walk_expr l.
Proof.
  induction l as [|e l IH]; [done|].
  rewrite fmap_cons. cbn [flat_map]. by rewrite IH.
Qed.

Lemma walk_fmap_stmt l : flat_map walk (NStmt <$> l) = flat_map walk_stmt l.
Proof.
  induction l as [|e l IH]; [done|].
  rewrite fmap_cons. cbn [flat_map]. by rewrite IH.
Qed.

Lemma walk_fmap_keywords (l : list (string * expr)) :
  flat_map walk (NExpr ∘ snd <$> l)
  = flat_map (fun kw => match kw with (_, v) => walk_expr v end) l.
Proof.
  induction l as [|[k v] l IH]; [done|].
  rewrite fmap_cons. cbn [flat_map]. by rewrite IH.
Qed.

Lemma walk_fmap_sum (l : list (expr + stmt)) :
  flat_map walk (sum_node <$> l)
  = flat_map (fun c => match c with
                       | inl e => walk_expr e
                       | inr s => walk_stmt s
                       end) l.
Proof.
  induction l as [|[e|s] l IH]; [done | |];
    rewrite fmap_cons; cbn [flat_map]; by rewrite IH.
Qed.

Lemma walk_opt_nodes o :
  flat_map walk (opt_nodes o)
  = match o with Some a => walk_expr a | None => [] end.
Proof. destruct o; simpl; [by rewrite app_nil_r | done]. Qed.

Lemma walk_unfold n : walk n = n :: flat_map walk (iter_child_nodes n).
Proof.
  destruct n as [[i body] | s | e]; [| destruct s | destruct e];
    cbn [iter_child_nodes flat_map];
    rewrite ?flat_map_app, ?walk_fmap_expr, ?walk_fmap_stmt,
      ?walk_fmap_keywords, ?walk_fmap_sum, ?walk_opt_nodes;
    cbn [flat_map walk]; rewrite ?app_nil_r; reflexivity.
Qed.

Lemma in_tree_walk root n : in_tree root n -> n ∈ walk root.
Proof.
  induction 1 as [x | x y z Hxy _ IH].
  - rewrite walk_unfold. by left.
  - rewrite walk_unfold. right.
    apply list_elem_of_In, in_flat_map. exists y.
    split; by apply list_elem_of_In.
Qed.

Tactic Notation "bind_inv" hyp(H) "as" ident(x) ident(Hx) :=
  apply bind_Ok in H; destruct H as (x & Hx & H).

Lemma log_lookup_elem l i t : log_lookup l i = Some t -> (i, Some t) ∈ l.
Proof.
  induction l as [|[j u] l IH]; simpl; [done|].
  case_decide; intros Hl; simplify_eq; [by left | right; auto].
Qed.

Section Provenance.
Variable root : node.

Lemma method_call_site_cons e log s m :
  method_call_site_in (in_tree root) log s m ->
  method_call_site_in (in_tree root) (e :: log) s m.
Proof.
  intros (i & func & args & keywords & starargs & kwargs & old & ? & ? & ?).
  exists i, func, args, keywords, starargs, kwargs, old.
  split_and!; auto. by apply suffix_cons_r.
Qed.

Lemma justified_cons e log ot :
  justified root log ot -> justified root (e :: log) ot.
Proof. intros H t s m ? ?. apply method_call_site_cons. eauto. Qed.

Lemma justified_None log : justified root log None.
Proof. intros t s m ?. discriminate. Qed.

Lemma justified_plain log t :
  invocation_of t = None -> justified root log (Some t).
Proof. intros H t' s m ? ?. simplify_eq. Qed.

Lemma provenance_node_read st i :
  provenance root st -> justified root (node_types st) (node_inferred_type st i).
Proof.
  intros Hp. unfold node_inferred_type.
  destruct (log_lookup (node_types st) i) as [t|] eqn:Ht;
    [|apply justified_None].
  apply (prov_nodes _ _ Hp i). by apply log_lookup_elem.
Qed.

Lemma provenance_symbol_read st k :
  provenance root st ->
  justified root (node_types st) (symbol_inferred_type st k).
Proof.
  intros Hp. unfold symbol_inferred_type.
  destruct (symbol_types st !! k) as [ot|] eqn:Hk; simpl;
    [|apply justified_None].
  by apply (prov_symbols _ _ Hp k).
Qed.

Lemma provenance_set_node st i ot :
  provenance root st ->
  justified root ((i, ot) :: node_types st) ot ->
  provenance root (set_node_inferred_type st i ot).
Proof.
  intros Hp Hot. split; simpl.
  - apply (prov_defs _ _ Hp).
  - intros k ot' Hk. apply justified_cons. by apply (prov_symbols _ _ Hp k).
  - intros j ot' Hin. apply elem_of_cons in Hin as [? | Hin].
    + by simplify_eq.
    + apply justified_cons. by apply (prov_nodes _ _ Hp j).
Qed.

Lemma provenance_set_node_old st i ot :
  provenance root st ->
  justified root (node_types st) ot ->
  provenance root (set_node_inferred_type st i ot).
Proof. intros Hp Hot. apply provenance_set_node, justified_cons; auto. Qed.

Lemma provenance_set_symbol tbl st name ot st' :
  set_inferred_type tbl st name ot = Ok st' ->
  provenance root st ->
  justified root (node_types st) ot ->
  provenance root st'.
Proof.
  intros Hset Hp Hot.
  apply set_inferred_type_Ok in Hset as (Hn & Hd & Hs).
  split; rewrite ?Hn, ?Hd, ?Hs.
  - apply (prov_defs _ _ Hp).
  - intros k ot' Hk. apply lookup_insert_Some in Hk as [[_ <-] | [_ Hk]];
      [done | by apply (prov_symbols _ _ Hp k)].
  - apply (prov_nodes _ _ Hp).
Qed.

Lemma provenance_register tbl st name def st' :
  register_ast_node_for_symbol tbl st name def = Ok st' ->
  provenance root st ->
  in_tree root (NStmt def) ->
  provenance root st'.
Proof.
  unfold register_ast_node_for_symbol. intros Hreg Hp Hdef.
  bind_inv Hreg as sym Hsym. simplify_eq. split; simpl.
  - intros k def' Hk. apply lookup_insert_Some in Hk as [[_ <-] | [_ Hk]];
      [done | by apply (prov_defs _ _ Hp k)].
  - apply (prov_symbols _ _ Hp).
  - apply (prov_nodes _ _ Hp).
Qed.

Lemma provenance_get_inferred_type tbl st name ot :
  get_inferred_type tbl st name = Ok ot ->
  provenance root st ->
  justified root (node_types st) ot.
Proof.
  unfold get_inferred_type. intros Hget Hp. bind_inv Hget as sym Hsym.
  destruct (is_global sym).
  - destruct (lookup (_global_table tbl) name) as [?|[]|]; simplify_eq;
      by first [apply justified_None | apply provenance_symbol_read].
  - simplify_eq. by apply provenance_symbol_read.
Qed.

Lemma provenance_lookup_ast_node tbl st name def :
  lookup_ast_node_for_symbol tbl st name = Ok def ->
  provenance root st ->
  in_tree root (NStmt def).
Proof.
  unfold lookup_ast_node_for_symbol. intros Hdef Hp.
  bind_inv Hdef as sym Hsym. bind_inv Hdef as tbl' Htbl.
  destruct (symbol_nodes st !! (table_id tbl', name)) as [d|] eqn:Hk;
    simplify_eq.
  by apply (prov_defs _ _ Hp _ _ Hk).
Qed.

Lemma for_each_preserves {A} (P : state -> Prop)
  (f : state -> A -> result state) l :
  (forall st x st', x ∈ l -> P st -> f st x = Ok st' -> P st') ->
  forall st st', P st -> for_each f st l = Ok st' -> P st'.
Proof.
  induction l as [|x l IH]; intros Hf st st' HP Hrun; simpl in Hrun.
  - by simplify_eq.
  - bind_inv Hrun as st0 Hst. eapply IH; [| |exact Hrun].
    + intros ? y ? Hy. apply Hf. by right.
    + eapply Hf; [by left | exact HP | exact Hst].
Qed.
End Provenance.

Section ProvenanceRules.
Variable root : node.
Variable visit : SymbolTableTypeInfer -> state -> node -> result state.
Hypothesis visit_preserves :
  forall self st n st',
    in_tree root n -> provenance root st -> visit self st n = Ok st' ->
    provenance root st'.

Lemma in_tree_child n c : in_tree root n -> c ∈ iter_child_nodes n -> in_tree root c.
Proof. intros Hn Hc. eapply rtc_r; [exact Hn | exact Hc]. Qed.

Lemma for_each_visit_preserves self l st st' :
  (forall n, n ∈ l -> in_tree root n) ->
  provenance root st -> for_each (visit self) st l = Ok st' ->
  provenance root st'.
Proof using visit_preserves.
  intros Hl. apply for_each_preserves.
  intros st1 n st2 Hn Hp Hv. eapply visit_preserves; eauto.
Qed.

Lemma generic_visit_preserves self st n st' :
  in_tree root n -> provenance root st ->
  generic_visit visit self st n = Ok st' -> provenance root st'.
Proof using visit_preserves.
  intros Hn. apply for_each_visit_preserves.
  intros c Hc. by eapply in_tree_child.
Qed.

Lemma visit_Import_preserves self st names st' :
  provenance root st -> visit_Import self st names = Ok st' ->
  provenance root st'.
Proof.
  unfold visit_Import. apply for_each_preserves.
  intros st1 a st2 _ Hp Hstep.
  destruct (String.eqb (alias_name a) _SDK_PACKAGE); [|by simplify_eq].
  eapply provenance_set_symbol; [exact Hstep | exact Hp |].
  by apply justified_plain.
Qed.

Lemma visit_Name_preserves self st i id st' :
  provenance root st -> visit_Name self st i id = Ok st' ->
  provenance root st'.
Proof.
  unfold visit_Name. intros Hp Hrun. bind_inv Hrun as t Ht. simplify_eq.
  apply provenance_set_node_old; [done|].
  by eapply provenance_get_inferred_type.
Qed.

Lemma visit_Assign_preserves self st i targets value st' :
  in_tree root (NStmt (Assign i targets value)) ->
  provenance root st ->
  visit_Assign visit self st i targets value = Ok st' ->
  provenance root st'.
Proof using visit_preserves.
  unfold visit_Assign. intros Hn Hp Hrun. bind_inv Hrun as st0 Hst.
  pose proof (generic_visit_preserves _ _ _ _ Hn Hp Hst) as Hp0.
  pose proof (provenance_node_read root st0 (expr_id value) Hp0) as Hrhs.
  set (P := fun rhs st => provenance root st /\
                          justified root (node_types st) rhs).
  assert (Hloop : forall rhs st1 st',
            P rhs st1 ->
            for_each
              (fun st t =>
                 match t with
                 | Name ti tid =>
                     st ← set_inferred_type (_symbol_table self) st tid rhs;
                     Ok (set_node_inferred_type st ti rhs)
                 | _ => Ok st
                 end) st1 targets = Ok st' ->
            P rhs st').
  { intros rhs. apply (for_each_preserves (P rhs)).
    intros st1 t st2 _ [Hp1 Hj1] Hstep.
    destruct t; simplify_eq; try done.
    bind_inv Hstep as st3 Hst1. simplify_eq.
    pose proof (provenance_set_symbol _ _ _ _ _ _ Hst1 Hp1 Hj1) as Hp2.
    apply set_inferred_type_Ok in Hst1 as (Hnodes & _ & _).
    split.
    - apply provenance_set_node_old; [done|]. by rewrite Hnodes.
    - simpl. apply justified_cons. by rewrite Hnodes. }
  match type of Hrun with
  | (let '(_, _) := ?X in _) = _ => destruct X as [rhs st1] eqn:Hpair
  end.
  refine (proj1 (Hloop rhs st1 st' _ Hrun)).
  destruct (node_inferred_type st0 (expr_id value)) as [t|] eqn:Hty.
  - simplify_eq. by split.
  - destruct value; simplify_eq; try by split.
    split.
    + apply provenance_set_node_old; [done|]. by apply justified_plain.
    + by apply justified_plain.
Qed.

Lemma visit_Attribute_preserves self st i value attr st' :
  in_tree root (NExpr (Attribute i value attr)) ->
  provenance root st ->
  visit_Attribute visit self st i value attr = Ok st' ->
  provenance root st'.
Proof using visit_preserves.
  unfold visit_Attribute. intros Hn Hp Hrun. bind_inv Hrun as st0 Hst.
  pose proof (generic_visit_preserves _ _ _ _ Hn Hp Hst) as Hp0.
  destruct (node_inferred_type st0 (expr_id value)) as [lhs|];
    [|by simplify_eq].
  destruct (eq_Boto3ModuleType (Some lhs)).
  - destruct (String.eqb attr _CREATE_CLIENT); simplify_eq; [|done].
    apply provenance_set_node_old; [done|]. by apply justified_plain.
  - destruct lhs; simplify_eq; try done.
    apply provenance_set_node_old; [done|]. by apply justified_plain.
Qed.

Lemma map_function_params_preserves sub st args def st' :
  provenance root st ->
  _map_function_params sub st args def = Ok st' ->
  provenance root st'.
Proof.
  unfold _map_function_params. destruct def; try discriminate.
  apply for_each_preserves.
  intros st1 [arg defined] st2 _ Hp Hstep.
  pose proof (provenance_node_read root st1 (expr_id arg) Hp) as Harg.
  destruct (node_inferred_type st1 (expr_id arg)); [|by simplify_eq].
  destruct defined; try discriminate.
  by eapply provenance_set_symbol.
Qed.

Lemma justified_return_type log r :
  justified root log (Some (FunctionType r)) -> justified root log (Some r).
Proof.
  intros H t s m Ht Hinv. injection Ht as ->.
  by apply (H (FunctionType t) s m).
Qed.

Lemma infer_function_call_preserves self st i function_name args st' :
  provenance root st ->
  _infer_function_call visit self st i function_name args = Ok st' ->
  provenance root st'.
Proof using visit_preserves.
  unfold _infer_function_call, bind_types. intros Hp Hrun.
  bind_inv Hrun as sub Hsub. bind_inv Hrun as st1 Hst0.
  bind_inv Hrun as st2 Hst1. bind_inv Hrun as st4 Hst2.
  bind_inv Hrun as st5 Hst3.
  cbn [parsed_ast symbol_table] in *.
  pose proof (provenance_lookup_ast_node _ _ _ _ _ Hst0 Hp) as Hdef.
  pose proof (map_function_params_preserves _ _ _ _ _ Hp Hst1) as Hp2.
  pose proof (visit_preserves _ _ _ _ Hdef Hp2 Hst2) as Hp3.
  pose proof (provenance_node_read root st4 (stmt_id st1) Hp3) as Hty.
  pose proof (provenance_set_symbol _ _ _ _ _ _ Hst3 Hp3 Hty) as Hp5.
  apply set_inferred_type_Ok in Hst3 as (Hnodes & _ & _).
  destruct (node_inferred_type st4 (stmt_id st1)) as [[]|];
    simplify_eq; try done.
  apply provenance_set_node_old; [done|]. rewrite Hnodes.
  by apply justified_return_type.
Qed.

Lemma visit_Call_preserves self st i func args keywords starargs kwargs st' :
  in_tree root (NExpr (Call i func args keywords starargs kwargs)) ->
  provenance root st ->
  visit_Call visit self st i func args keywords starargs kwargs = Ok st' ->
  provenance root st'.
Proof using visit_preserves.
  unfold visit_Call. intros Hn Hp Hrun. bind_inv Hrun as st0 Hst.
  pose proof (generic_visit_preserves _ _ _ _ Hn Hp Hst) as Hp0.
  pose proof (provenance_node_read root st0 (expr_id func) Hp0) as Hfunc.
  destruct (eq_Boto3CreateClientType (node_inferred_type st0 (expr_id func))).
  { destruct args as [|service_arg ?]; [by simplify_eq|].
    destruct service_arg;
      try destruct (node_inferred_type st0 _) as [[]|];
      simplify_eq; try done;
      (apply provenance_set_node_old; [done | by apply justified_plain]). }
  destruct (node_inferred_type st0 (expr_id func)) as [tf|] eqn:Htf.
  - destruct tf; simplify_eq; try done;
      try (destruct func; simplify_eq; try done;
           destruct (has_ast_node_for_symbol _ _ _); simplify_eq; try done;
           by eapply infer_function_call_preserves).
    + apply provenance_set_node. { done. }
      intros t s m [= <-] [= <- <-].
      exists i, func, args, keywords, starargs, kwargs, (node_types st0).
      split_and!; [exact Hn | reflexivity | exact Htf].
    + apply provenance_set_node_old; [done|].
      intros t s m [= <-] Hinv. by apply (Hfunc _ s m eq_refl).
    + apply provenance_set_node_old; [done|].
      by apply justified_return_type.
  - destruct func; simplify_eq; try done.
    destruct (has_ast_node_for_symbol _ _ _); simplify_eq; try done.
    by eapply infer_function_call_preserves.
Qed.

Lemma visit_FunctionDef_preserves self st i name args defaults body decos st' :
  in_tree root (NStmt (FunctionDef i name args defaults body decos)) ->
  provenance root st ->
  visit_FunctionDef visit self st
    (FunctionDef i name args defaults body decos) name body = Ok st' ->
  provenance root st'.
Proof using visit_preserves.
  unfold visit_FunctionDef. intros Hn Hp Hrun.
  destruct (String.eqb name _).
  - eapply for_each_visit_preserves; [|exact Hp|exact Hrun].
    intros c Hc. eapply in_tree_child; [exact Hn|].
    cbn [iter_child_nodes]. rewrite !elem_of_app. auto.
  - by eapply provenance_register.
Qed.

Lemma visit_Return_preserves self st i value st' :
  in_tree root (NStmt (Return i value)) ->
  provenance root st ->
  visit_Return visit self st i value = Ok st' ->
  provenance root st'.
Proof using visit_preserves.
  unfold visit_Return. intros Hn Hp Hrun. bind_inv Hrun as st0 Hst.
  pose proof (generic_visit_preserves _ _ _ _ Hn Hp Hst) as Hp0.
  destruct value as [e|]; simpl in Hrun; [|by simplify_eq].
  pose proof (provenance_node_read root st0 (expr_id e) Hp0) as He.
  destruct (node_inferred_type st0 (expr_id e)) as [t|]; simplify_eq;
    [|done].
  apply provenance_set_node_old.
  - by apply provenance_set_node_old.
  - simpl. apply justified_cons.
    intros t' s m [= <-] Hinv. by apply (He t s m).
Qed.

Lemma visit_node_preserves self st n st' :
  in_tree root n -> provenance root st ->
  visit_node visit self st n = Ok st' -> provenance root st'.
Proof using visit_preserves.
  intros Hn Hp Hrun.
  destruct n as [m | s | e]; [| destruct s | destruct e]; simpl in Hrun;
    unfold visit_Lambda, visit_ClassDef in Hrun; simplify_eq; try done;
    eauto using generic_visit_preserves, visit_Import_preserves,
      visit_Name_preserves, visit_Assign_preserves, visit_Attribute_preserves,
      visit_Call_preserves, visit_FunctionDef_preserves,
      visit_Return_preserves.
Qed.
End ProvenanceRules.

Lemma visit_preserves_provenance root fuel :
  forall self st n st',
    in_tree root n -> provenance root st -> visit fuel self st n = Ok st' ->
    provenance root st'.
Proof.
  induction fuel as [|fuel IH]; intros self st n st' Hn Hp Hrun;
    [discriminate|].
  simpl in Hrun. by eapply visit_node_preserves.
Qed.

Lemma provenance_empty root : provenance root empty_state.
Proof.
  split; simpl; intros *.
  - by rewrite lookup_empty.
  - by rewrite lookup_empty.
  - intros H. by apply elem_of_nil in H.
Qed.

Lemma method_call_site_in_mono (P Q : node -> Prop) log s m :
  (forall n, P n -> Q n) ->
  method_call_site_in P log s m -> method_call_site_in Q log s m.
Proof.
  intros HPQ (i & func & args & keywords & starargs & kwargs & old & ? & ? & ?).
  exists i, func, args, keywords, starargs, kwargs, old. auto.
Qed.

Lemma elem_of_flat_map {A B} (f : A -> list B) (l : list A) (y : B) :
  y ∈ flat_map f l <-> exists x, x ∈ l /\ y ∈ f x.
Proof.
  rewrite list_elem_of_In, in_flat_map. split.
  - intros (x & Hx & Hy). exists x. by rewrite !list_elem_of_In.
  - intros (x & Hx & Hy). exists x. by rewrite <- !list_elem_of_In.
Qed.

(** *** What the preprocessor adds to a tree *)

Lemma in_list_or_inserted_mono fresh l l' n :
  (forall x, x ∈ l -> x ∈ l') ->
  in_list_or_inserted fresh l n -> in_list_or_inserted fresh l' n.
Proof.
  intros Hsub [Hn | (i & name & args & defaults & body & decos & Hd & Hv & Hn)].
  - left. auto.
  - right. exists i, name, args, defaults, body, decos. auto.
Qed.

Lemma walk_sum_inr (l : list stmt) :
  flat_map (fun c : expr + stmt =>
              match c with inl e => walk_expr e | inr s => walk_stmt s end)
           (inr <$> l)
  = flat_map walk_stmt l.
Proof.
  induction l as [|x l IH]; [done|].
  rewrite fmap_cons. cbn [flat_map]. by rewrite IH.
Qed.

(** Every expression node of a transformed statement is a node of the
    statement it came from, or a node of an inserted statement. *)
Lemma transform_stmt_exprs fresh :
  forall s s' e,
    s' ∈ transform_stmt fresh s -> NExpr e ∈ walk_stmt s' ->
    in_list_or_inserted fresh (walk_stmt s) (NExpr e).
Proof.
  fix IH 1. intros s s' e Hs' He.
  destruct s; cbn [transform_stmt] in Hs';
    try (apply list_elem_of_singleton in Hs' as ->; by left).
  - destruct (_is_chalice_view decorator_list) eqn:Hview.
    + apply elem_of_cons in Hs' as [-> | Hs']; [by left|].
      apply list_elem_of_singleton in Hs' as ->. right.
      exists i, name, args, defaults, body, decorator_list.
      split_and!; [by left | exact Hview | exact He].
    + apply list_elem_of_singleton in Hs' as ->. by left.
  - apply list_elem_of_singleton in Hs' as ->.
    cbn [walk_stmt] in He. apply elem_of_cons in He as [He | He];
      [discriminate He|].
    rewrite !elem_of_app in He.
    assert (Hbody :
              NExpr e ∈ flat_map walk_stmt
                          (flat_map (transform_stmt fresh) body) ->
              in_list_or_inserted fresh (flat_map walk_stmt body) (NExpr e)).
    { clear He. induction body as [|b body IHbody]; cbn [flat_map].
      - intros Hnil. by apply elem_of_nil in Hnil.
      - rewrite flat_map_app, elem_of_app. intros [Hb | Hrest].
        + apply elem_of_flat_map in Hb as (s' & Hs' & He).
          eapply in_list_or_inserted_mono; [|exact (IH b s' e Hs' He)].
          intros x Hx. apply elem_of_app. by left.
        + eapply in_list_or_inserted_mono; [|exact (IHbody Hrest)].
          intros x Hx. apply elem_of_app. by right. }
    destruct He as [He | [He | He]].
    + left. cbn [walk_stmt]. right. rewrite !elem_of_app. auto.
    + eapply in_list_or_inserted_mono; [|exact (Hbody He)].
      intros x Hx. cbn [walk_stmt]. right. rewrite !elem_of_app. auto.
    + left. cbn [walk_stmt]. right. rewrite !elem_of_app. auto.
  - apply list_elem_of_singleton in Hs' as ->.
    cbn [walk_stmt] in He. apply elem_of_cons in He as [He | He];
      [discriminate He|].
    eapply in_list_or_inserted_mono;
      [intros x Hx; cbn [walk_stmt]; right; exact Hx|].
    revert He. induction children as [|[e0 | s0] children IHchildren];
      cbn [flat_map].
    + intros Hnil. by apply elem_of_nil in Hnil.
    + cbn [app flat_map]. rewrite !elem_of_app. intros [He | Hrest].
      * left. apply elem_of_app. by left.
      * eapply in_list_or_inserted_mono; [|exact (IHchildren Hrest)].
        intros x Hx. apply elem_of_app. by right.
    + rewrite flat_map_app, walk_sum_inr, !elem_of_app. intros [Hs0 | Hrest].
      * apply elem_of_flat_map in Hs0 as (s' & Hs' & He).
        eapply in_list_or_inserted_mono; [|exact (IH s0 s' e Hs' He)].
        intros x Hx. apply elem_of_app. by left.
      * eapply in_list_or_inserted_mono; [|exact (IHchildren Hrest)].
        intros x Hx. apply elem_of_app. by right.
Qed.

Lemma transformed_module_exprs parsed e :
  NExpr e ∈ walk (NMod (AppViewTransformer_visit parsed)) ->
  in_source_or_inserted parsed (NExpr e).
Proof.
  destruct parsed as [i body]. unfold in_source_or_inserted.
  set (fresh := S (max_id (NMod (PyModule i body)))).
  unfold AppViewTransformer_visit. fold fresh. cbn [walk].
  intros He. apply elem_of_cons in He as [He | He]; [discriminate He|].
  apply elem_of_flat_map in He as (s' & Hs' & He).
  apply elem_of_flat_map in Hs' as (s & Hs & Hs').
  eapply in_list_or_inserted_mono;
    [|exact (transform_stmt_exprs fresh s s' e Hs' He)].
  intros x Hx. right. apply elem_of_flat_map. eauto.
Qed.

(** The two halves of the invariant fail as they stand.  In
    [r = boto3.client('s3').list_objects()] the target node [r] ends up typed
    as an invocation although it is no call node.  In application mode, when
    the name of a view was bound to a method reference before the view is
    defined, the inserted call of the view is typed as an invocation: the
    mapping reports a pair that no call of the source made. *)
Lemma invocation_only_on_method_calls_fails :
  ~ invocation_only_on_method_calls /\
  ~ every_pair_has_a_call_site_in_the_source.
Proof.
  split.
  - intros Hinv.
    edestruct (Hinv 8 assigned_result_ast assigned_result_table
                 (final_state
                    (bind_types (visit 8) empty_state
                       (parse_code assigned_result_ast assigned_result_table)))
                 (NExpr (Name 3 "r")) "s3" "list_objects")
      as (i & func & args & keywords & starargs & kwargs & Hcall & _).
    + apply final_state_Ok. vm_compute. reflexivity.
    + apply list_elem_of_In. simpl. auto.
    + reflexivity.
    + discriminate Hcall.
  - intros Hsite.
    pose (r := bind_types (visit 8) empty_state
                 (parse_code (AppViewTransformer_visit rebound_view_ast)
                    rebound_view_table)).
    destruct (Hsite 8 rebound_view_ast rebound_view_table (final_state r)
                "s3" {[ "list_objects" ]} "list_objects")
      as (i & func & args & keywords & starargs & kwargs & old
          & Hin & Hsuffix & _).
    + apply final_state_Ok. vm_compute. reflexivity.
    + reflexivity.
    + apply elem_of_singleton. reflexivity.
    + assert (Hlog : (i, Some (Boto3ClientMethodCallType "s3" "list_objects"))
                     ∈ node_types (final_state r)).
      { destruct Hsuffix as [k ->]. apply elem_of_app. right. by left. }
      vm_compute in Hlog.
      repeat (apply elem_of_cons in Hlog as [Hlog | Hlog];
              [try discriminate Hlog|]);
        [|by apply elem_of_nil in Hlog].
      injection Hlog as ->.
      vm_compute in Hin.
      repeat (apply elem_of_cons in Hin as [Hin | Hin];
              [discriminate Hin|]).
      by apply elem_of_nil in Hin.
Qed.

(** C4 (amended): after the engine ran over a tree from the empty store,
    every invocation type [Boto3ClientMethodCallType s m] ever written on a
    node, on a call node or as a copy on any other node, has a call site: a
    call node of the tree that was typed [Boto3ClientMethodCallType s m]
    when its callee node was typed [Boto3ClientMethodType s m].  So every
    (service, method) pair of the mapping that [get_client_calls] returns has
    such a call site among the nodes of the source, and every pair of the
    mapping that [get_client_calls_for_app] returns has such a call site
    among the nodes of the source and the statements the preprocessor
    inserted. *)
Theorem invocations_come_from_method_calls :
  (forall fuel parsed table st i t s m,
     bind_types (visit fuel) empty_state (parse_code parsed table) = Ok st ->
     (i, Some t) ∈ node_types st -> invocation_of t = Some (s, m) ->
     method_call_site (NMod parsed) (node_types st) s m) /\
  (forall fuel parsed table calls s ms m,
     get_client_calls fuel parsed table = Ok calls ->
     calls !! s = Some ms -> m ∈ ms ->
     exists st,
       bind_types (visit fuel) empty_state (parse_code parsed table) = Ok st /\
       method_call_site (NMod parsed) (node_types st) s m) /\
  (forall fuel parsed table calls s ms m,
     get_client_calls_for_app fuel parsed table = Ok calls ->
     calls !! s = Some ms -> m ∈ ms ->
     exists st,
       bind_types (visit fuel) empty_state
         (parse_code (AppViewTransformer_visit parsed) table) = Ok st /\
       method_call_site_in (in_source_or_inserted parsed) (node_types st) s m).
Proof.
  assert (Hnodes : forall fuel parsed table st i t s m,
            bind_types (visit fuel) empty_state (parse_code parsed table)
              = Ok st ->
            (i, Some t) ∈ node_types st -> invocation_of t = Some (s, m) ->
            method_call_site (NMod parsed) (node_types st) s m).
  { intros fuel parsed table st i t s m Hrun Hin Hinv.
    unfold bind_types in Hrun. cbn [parse_code parsed_ast] in Hrun.
    assert (Hp : provenance (NMod parsed) st).
    { eapply visit_preserves_provenance;
        [apply rtc_refl | apply provenance_empty | exact Hrun]. }
    eapply method_call_site_in_mono; [apply in_tree_walk|].
    by apply (prov_nodes _ _ Hp i (Some t) Hin t s m). }
  assert (Hcalls : forall fuel parsed table calls s ms m,
            get_client_calls fuel parsed table = Ok calls ->
            calls !! s = Some ms -> m ∈ ms ->
            exists st,
              bind_types (visit fuel) empty_state (parse_code parsed table)
                = Ok st /\
              method_call_site (NMod parsed) (node_types st) s m).
  { intros fuel parsed table calls s ms m Hrun Hs Hm.
    unfold get_client_calls in Hrun. bind_inv Hrun as st Hst.
    injection Hrun as <-. exists st. split; [exact Hst|].
    cbn [parse_code parsed_ast] in Hs.
    destruct (collected_from_node _ _ _ _ _ _ Hs Hm)
      as [(ms0 & Hs0 & _) | (n & _ & Hty)].
    - by rewrite lookup_empty in Hs0.
    - apply log_lookup_elem in Hty. by eapply Hnodes. }
  split_and!; [exact Hnodes | exact Hcalls |].
  intros fuel parsed table calls s ms m Hrun Hs Hm.
  destruct (Hcalls fuel (AppViewTransformer_visit parsed) table calls s ms m
              Hrun Hs Hm)
    as (st & Hst & i & func & args & keywords & starargs & kwargs & old
        & Hin & Hsuffix & Hfunc).
  exists st. split; [exact Hst|].
  exists i, func, args, keywords, starargs, kwargs, old.
  split_and!; [by apply transformed_module_exprs | exact Hsuffix | exact Hfunc].
Qed.

Lemma invocations_come_from_method_calls_witness :
  let st := final_state
              (bind_types (visit 8) empty_state
                 (parse_code assigned_result_ast assigned_result_table)) in
  get_client_calls 8 assigned_result_ast assigned_result_table
    = Ok {[ "s3" := {[ "list_objects" ]} ]} /\
  method_call_site (NMod assigned_result_ast) (node_types st)
    "s3" "list_objects" /\
  exists st',
    bind_types (visit 10) empty_state
      (parse_code (AppViewTransformer_visit view_ast) view_table) = Ok st' /\
    method_call_site_in (in_source_or_inserted view_ast) (node_types st')
      "s3" "list_objects".
Proof.
  intros st.
  destruct invocations_come_from_method_calls as (Hnodes & _ & Happ).
  split_and!.
  - reflexivity.
  - apply (Hnodes 8 assigned_result_ast assigned_result_table st 3
             (Boto3ClientMethodCallType "s3" "list_objects")).
    + apply final_state_Ok. vm_compute. reflexivity.
    + apply list_elem_of_In. vm_compute. auto.
    + reflexivity.
  - apply (Happ 10 view_ast view_table {[ "s3" := {[ "list_objects" ]} ]}
             "s3" {[ "list_objects" ]} "list_objects").
    + reflexivity.
    + reflexivity.
    + apply elem_of_singleton. reflexivity.
Defined.

(** ** Calling the client factory *)

Lemma literal_string_value_log st a :
  literal_string_value st a = literal_of (node_types st) a.
Proof. by destruct a. Qed.

(** The rule does not hold for any argument: in [boto3.client(x, 's3')] the
    second argument is a string literal, yet the call node gets no type,
    because only the first positional argument is looked at. *)
Lemma client_factory_rule_for_any_argument_fails :
  ~ client_factory_rule_for_any_argument.
Proof.
  intros Hrule.
  pose (self := top_engine second_argument_ast second_argument_table).
  pose (st1 := set_node_inferred_type
                 (set_node_inferred_type
                    (set_node_inferred_type sdk_imported 5
                       (Some Boto3ModuleType))
                    4 (Some Boto3CreateClientType)) 6 None).
  destruct (Hrule 4 self sdk_imported 3 (Attribute 4 (Name 5 "boto3") "client")
              [Name 6 "x"; Str 7 "s3"] [] None None st1 st1)
    as (a & v & _ & _ & Hty).
  - reflexivity.
  - reflexivity.
  - exists (Str 7 "s3"), "s3". split; [|reflexivity].
    apply list_elem_of_In. simpl. auto.
  - reflexivity.
  - discriminate Hty.
Qed.

Section ServiceProvenance.
Variable root : node.

Lemma factory_call_site_cons e log s :
  factory_call_site_in (in_tree root) log s ->
  factory_call_site_in (in_tree root) (e :: log) s.
Proof.
  intros (i & func & args & keywords & starargs & kwargs & old
          & ? & ? & ? & ?).
  exists i, func, args, keywords, starargs, kwargs, old.
  split_and!; auto. by apply suffix_cons_r.
Qed.

Lemma resolved_cons e log ot :
  resolved root log ot -> resolved root (e :: log) ot.
Proof. intros H t s ? ?. apply factory_call_site_cons. eauto. Qed.

Lemma resolved_None log : resolved root log None.
Proof. intros t s ?. discriminate. Qed.

Lemma resolved_plain log t :
  service_of t = None -> resolved root log (Some t).
Proof. intros H t' s ? ?. simplify_eq. Qed.

Lemma resolved_same_service log t t' :
  service_of t' = service_of t ->
  resolved root log (Some t) -> resolved root log (Some t').
Proof. intros Heq H u s [= <-] Hs. apply (H t s eq_refl). congruence. Qed.

Lemma resolved_return_type log r :
  resolved root log (Some (FunctionType r)) -> resolved root log (Some r).
Proof.
  intros H t s Ht Hs. injection Ht as ->. by apply (H (FunctionType t) s).
Qed.

Lemma resolved_new_client st i func args keywords starargs kwargs s :
  in_tree root (NExpr (Call i func args keywords starargs kwargs)) ->
  node_inferred_type st (expr_id func) = Some Boto3CreateClientType ->
  head args ≫= literal_of (node_types st) = Some s ->
  resolved root ((i, Some (Boto3ClientType s)) :: node_types st)
    (Some (Boto3ClientType s)).
Proof.
  intros Hn Hfunc Harg t s' [= <-] [= <-].
  exists i, func, args, keywords, starargs, kwargs, (node_types st).
  split_and!; [exact Hn | reflexivity | exact Hfunc | exact Harg].
Qed.

Lemma service_provenance_node_read st i :
  service_provenance root st -> resolved root (node_types st) (node_inferred_type st i).
Proof.
  intros Hp. unfold node_inferred_type.
  destruct (log_lookup (node_types st) i) as [t|] eqn:Ht;
    [|apply resolved_None].
  apply (sprov_nodes _ _ Hp i). by apply log_lookup_elem.
Qed.

Lemma service_provenance_symbol_read st k :
  service_provenance root st ->
  resolved root (node_types st) (symbol_inferred_type st k).
Proof.
  intros Hp. unfold symbol_inferred_type.
  destruct (symbol_types st !! k) as [ot|] eqn:Hk; simpl;
    [|apply resolved_None].
  by apply (sprov_symbols _ _ Hp k).
Qed.

Lemma service_provenance_set_node st i ot :
  service_provenance root st ->
  resolved root ((i, ot) :: node_types st) ot ->
  service_provenance root (set_node_inferred_type st i ot).
Proof.
  intros Hp Hot. split; simpl.
  - apply (sprov_defs _ _ Hp).
  - intros k ot' Hk. apply resolved_cons. by apply (sprov_symbols _ _ Hp k).
  - intros j ot' Hin. apply elem_of_cons in Hin as [? | Hin].
    + by simplify_eq.
    + apply resolved_cons. by apply (sprov_nodes _ _ Hp j).
Qed.

Lemma service_provenance_set_node_old st i ot :
  service_provenance root st ->
  resolved root (node_types st) ot ->
  service_provenance root (set_node_inferred_type st i ot).
Proof. intros Hp Hot. apply service_provenance_set_node, resolved_cons; auto. Qed.

Lemma service_provenance_set_symbol tbl st name ot st' :
  set_inferred_type tbl st name ot = Ok st' ->
  service_provenance root st ->
  resolved root (node_types st) ot ->
  service_provenance root st'.
Proof.
  intros Hset Hp Hot.
  apply set_inferred_type_Ok in Hset as (Hn & Hd & Hs).
  split; rewrite ?Hn, ?Hd, ?Hs.
  - apply (sprov_defs _ _ Hp).
  - intros k ot' Hk. apply lookup_insert_Some in Hk as [[_ <-] | [_ Hk]];
      [done | by apply (sprov_symbols _ _ Hp k)].
  - apply (sprov_nodes _ _ Hp).
Qed.

Lemma service_provenance_register tbl st name def st' :
  register_ast_node_for_symbol tbl st name def = Ok st' ->
  service_provenance root st ->
  in_tree root (NStmt def) ->
  service_provenance root st'.
Proof.
  unfold register_ast_node_for_symbol. intros Hreg Hp Hdef.
  bind_inv Hreg as sym Hsym. simplify_eq. split; simpl.
  - intros k def' Hk. apply lookup_insert_Some in Hk as [[_ <-] | [_ Hk]];
      [done | by apply (sprov_defs _ _ Hp k)].
  - apply (sprov_symbols _ _ Hp).
  - apply (sprov_nodes _ _ Hp).
Qed.

Lemma service_provenance_get_inferred_type tbl st name ot :
  get_inferred_type tbl st name = Ok ot ->
  service_provenance root st ->
  resolved root (node_types st) ot.
Proof.
  unfold get_inferred_type. intros Hget Hp. bind_inv Hget as sym Hsym.
  destruct (is_global sym).
  - destruct (lookup (_global_table tbl) name) as [?|[]|]; simplify_eq;
      by first [apply resolved_None | apply service_provenance_symbol_read].
  - simplify_eq. by apply service_provenance_symbol_read.
Qed.

Lemma service_provenance_lookup_ast_node tbl st name def :
  lookup_ast_node_for_symbol tbl st name = Ok def ->
  service_provenance root st ->
  in_tree root (NStmt def).
Proof.
  unfold lookup_ast_node_for_symbol. intros Hdef Hp.
  bind_inv Hdef as sym Hsym. bind_inv Hdef as tbl' Htbl.
  destruct (symbol_nodes st !! (table_id tbl', name)) as [d|] eqn:Hk;
    simplify_eq.
  by apply (sprov_defs _ _ Hp _ _ Hk).
Qed.

End ServiceProvenance.

Section ServiceProvenanceRules.
Variable root : node.
Variable visit : SymbolTableTypeInfer -> state -> node -> result state.
Hypothesis visit_resolves :
  forall self st n st',
    in_tree root n -> service_provenance root st -> visit self st n = Ok st' ->
    service_provenance root st'.

Lemma for_each_visit_resolves self l st st' :
  (forall n, n ∈ l -> in_tree root n) ->
  service_provenance root st -> for_each (visit self) st l = Ok st' ->
  service_provenance root st'.
Proof using visit_resolves.
  intros Hl. apply for_each_preserves.
  intros st1 n st2 Hn Hp Hv. eapply visit_resolves; eauto.
Qed.

Lemma generic_visit_resolves self st n st' :
  in_tree root n -> service_provenance root st ->
  generic_visit visit self st n = Ok st' -> service_provenance root st'.
Proof using visit_resolves.
  intros Hn. apply for_each_visit_resolves.
  intros c Hc. by eapply in_tree_child.
Qed.

Lemma visit_Import_resolves self st names st' :
  service_provenance root st -> visit_Import self st names = Ok st' ->
  service_provenance root st'.
Proof.
  unfold visit_Import. apply for_each_preserves.
  intros st1 a st2 _ Hp Hstep.
  destruct (String.eqb (alias_name a) _SDK_PACKAGE); [|by simplify_eq].
  eapply service_provenance_set_symbol; [exact Hstep | exact Hp |].
  by apply resolved_plain.
Qed.

Lemma visit_Name_resolves self st i id st' :
  service_provenance root st -> visit_Name self st i id = Ok st' ->
  service_provenance root st'.
Proof.
  unfold visit_Name. intros Hp Hrun. bind_inv Hrun as t Ht. simplify_eq.
  apply service_provenance_set_node_old; [done|].
  by eapply service_provenance_get_inferred_type.
Qed.

Lemma visit_Assign_resolves self st i targets value st' :
  in_tree root (NStmt (Assign i targets value)) ->
  service_provenance root st ->
  visit_Assign visit self st i targets value = Ok st' ->
  service_provenance root st'.
Proof using visit_resolves.
  unfold visit_Assign. intros Hn Hp Hrun. bind_inv Hrun as st0 Hst.
  pose proof (generic_visit_resolves _ _ _ _ Hn Hp Hst) as Hp0.
  pose proof (service_provenance_node_read root st0 (expr_id value) Hp0) as Hrhs.
  set (P := fun rhs st => service_provenance root st /\
                          resolved root (node_types st) rhs).
  assert (Hloop : forall rhs st1 st',
            P rhs st1 ->
            for_each
              (fun st t =>
                 match t with
                 | Name ti tid =>
                     st ← set_inferred_type (_symbol_table self) st tid rhs;
                     Ok (set_node_inferred_type st ti rhs)
                 | _ => Ok st
                 end) st1 targets = Ok st' ->
            P rhs st').
  { intros rhs. apply (for_each_preserves (P rhs)).
    intros st1 t st2 _ [Hp1 Hj1] Hstep.
    destruct t; simplify_eq; try done.
    bind_inv Hstep as st3 Hst1. simplify_eq.
    pose proof (service_provenance_set_symbol _ _ _ _ _ _ Hst1 Hp1 Hj1) as Hp2.
    apply set_inferred_type_Ok in Hst1 as (Hnodes & _ & _).
    split.
    - apply service_provenance_set_node_old; [done|]. by rewrite Hnodes.
    - simpl. apply resolved_cons. by rewrite Hnodes. }
  match type of Hrun with
  | (let '(_, _) := ?X in _) = _ => destruct X as [rhs st1] eqn:Hpair
  end.
  refine (proj1 (Hloop rhs st1 st' _ Hrun)).
  destruct (node_inferred_type st0 (expr_id value)) as [t|] eqn:Hty.
  - simplify_eq. by split.
  - destruct value; simplify_eq; try by split.
    split.
    + apply service_provenance_set_node_old; [done|]. by apply resolved_plain.
    + by apply resolved_plain.
Qed.

Lemma visit_Attribute_resolves self st i value attr st' :
  in_tree root (NExpr (Attribute i value attr)) ->
  service_provenance root st ->
  visit_Attribute visit self st i value attr = Ok st' ->
  service_provenance root st'.
Proof using visit_resolves.
  unfold visit_Attribute. intros Hn Hp Hrun. bind_inv Hrun as st0 Hst.
  pose proof (generic_visit_resolves _ _ _ _ Hn Hp Hst) as Hp0.
  pose proof (service_provenance_node_read root st0 (expr_id value) Hp0)
    as Hlhs.
  destruct (node_inferred_type st0 (expr_id value)) as [lhs|];
    [|by simplify_eq].
  destruct (eq_Boto3ModuleType (Some lhs)).
  - destruct (String.eqb attr _CREATE_CLIENT); simplify_eq; [|done].
    apply service_provenance_set_node_old; [done|]. by apply resolved_plain.
  - destruct lhs; simplify_eq; try done.
    apply service_provenance_set_node_old; [done|].
    eapply resolved_same_service; [|exact Hlhs]. reflexivity.
Qed.

Lemma map_function_params_resolves sub st args def st' :
  service_provenance root st ->
  _map_function_params sub st args def = Ok st' ->
  service_provenance root st'.
Proof.
  unfold _map_function_params. destruct def; try discriminate.
  apply for_each_preserves.
  intros st1 [arg defined] st2 _ Hp Hstep.
  pose proof (service_provenance_node_read root st1 (expr_id arg) Hp) as Harg.
  destruct (node_inferred_type st1 (expr_id arg)); [|by simplify_eq].
  destruct defined; try discriminate.
  by eapply service_provenance_set_symbol.
Qed.

Lemma infer_function_call_resolves self st i function_name args st' :
  service_provenance root st ->
  _infer_function_call visit self st i function_name args = Ok st' ->
  service_provenance root st'.
Proof using visit_resolves.
  unfold _infer_function_call, bind_types. intros Hp Hrun.
  bind_inv Hrun as sub Hsub. bind_inv Hrun as st1 Hst0.
  bind_inv Hrun as st2 Hst1. bind_inv Hrun as st4 Hst2.
  bind_inv Hrun as st5 Hst3.
  cbn [parsed_ast symbol_table] in *.
  pose proof (service_provenance_lookup_ast_node _ _ _ _ _ Hst0 Hp) as Hdef.
  pose proof (map_function_params_resolves _ _ _ _ _ Hp Hst1) as Hp2.
  pose proof (visit_resolves _ _ _ _ Hdef Hp2 Hst2) as Hp3.
  pose proof (service_provenance_node_read root st4 (stmt_id st1) Hp3) as Hty.
  pose proof (service_provenance_set_symbol _ _ _ _ _ _ Hst3 Hp3 Hty) as Hp5.
  apply set_inferred_type_Ok in Hst3 as (Hnodes & _ & _).
  destruct (node_inferred_type st4 (stmt_id st1)) as [[]|];
    simplify_eq; try done.
  apply service_provenance_set_node_old; [done|]. rewrite Hnodes.
  by apply resolved_return_type.
Qed.

Lemma visit_Call_resolves self st i func args keywords starargs kwargs st' :
  in_tree root (NExpr (Call i func args keywords starargs kwargs)) ->
  service_provenance root st ->
  visit_Call visit self st i func args keywords starargs kwargs = Ok st' ->
  service_provenance root st'.
Proof using visit_resolves.
  unfold visit_Call. intros Hn Hp Hrun. bind_inv Hrun as st0 Hst.
  pose proof (generic_visit_resolves _ _ _ _ Hn Hp Hst) as Hp0.
  pose proof (service_provenance_node_read root st0 (expr_id func) Hp0)
    as Hfunc.
  destruct (node_inferred_type st0 (expr_id func)) as [[]|] eqn:Htf;
    cbn [eq_Boto3CreateClientType] in Hrun;
    try (destruct func; simplify_eq; try done;
         destruct (has_ast_node_for_symbol _ _ _); simplify_eq; try done;
         by eapply infer_function_call_resolves).
  - destruct args as [|service_arg rest]; [by simplify_eq|].
    destruct service_arg;
      try match type of Hrun with
          | match ?X with _ => _ end = _ => destruct X as [[]|] eqn:Harg
          end;
      simplify_eq; try done;
      (apply service_provenance_set_node; [done|];
       eapply resolved_new_client; [exact Hn | exact Htf |];
       cbn [head mbind option_bind literal_of expr_id];
       try (unfold node_inferred_type in Harg; cbn [expr_id] in Harg;
            rewrite Harg);
       reflexivity).
  - simplify_eq. apply service_provenance_set_node_old; [done|].
    eapply resolved_same_service; [|exact Hfunc]. reflexivity.
  - simplify_eq. apply service_provenance_set_node_old; [done|].
    eapply resolved_same_service; [|exact Hfunc]. reflexivity.
  - simplify_eq. apply service_provenance_set_node_old; [done|].
    by apply resolved_return_type.
Qed.

Lemma visit_FunctionDef_resolves self st i name args defaults body decos st' :
  in_tree root (NStmt (FunctionDef i name args defaults body decos)) ->
  service_provenance root st ->
  visit_FunctionDef visit self st
    (FunctionDef i name args defaults body decos) name body = Ok st' ->
  service_provenance root st'.
Proof using visit_resolves.
  unfold visit_FunctionDef. intros Hn Hp Hrun.
  destruct (String.eqb name _).
  - eapply for_each_visit_resolves; [|exact Hp|exact Hrun].
    intros c Hc. eapply in_tree_child; [exact Hn|].
    cbn [iter_child_nodes]. rewrite !elem_of_app. auto.
  - by eapply service_provenance_register.
Qed.

Lemma visit_Return_resolves self st i value st' :
  in_tree root (NStmt (Return i value)) ->
  service_provenance root st ->
  visit_Return visit self st i value = Ok st' ->
  service_provenance root st'.
Proof using visit_resolves.
  unfold visit_Return. intros Hn Hp Hrun. bind_inv Hrun as st0 Hst.
  pose proof (generic_visit_resolves _ _ _ _ Hn Hp Hst) as Hp0.
  destruct value as [e|]; simpl in Hrun; [|by simplify_eq].
  pose proof (service_provenance_node_read root st0 (expr_id e) Hp0) as He.
  destruct (node_inferred_type st0 (expr_id e)) as [t|]; simplify_eq;
    [|done].
  apply service_provenance_set_node_old.
  - by apply service_provenance_set_node_old.
  - simpl. apply resolved_cons.
    intros t' s [= <-] Hs. by apply (He t s).
Qed.

Lemma visit_node_resolves self st n st' :
  in_tree root n -> service_provenance root st ->
  visit_node visit self st n = Ok st' -> service_provenance root st'.
Proof using visit_resolves.
  intros Hn Hp Hrun.
  destruct n as [m | s | e]; [| destruct s | destruct e]; simpl in Hrun;
    unfold visit_Lambda, visit_ClassDef in Hrun; simplify_eq; try done;
    eauto using generic_visit_resolves, visit_Import_resolves,
      visit_Name_resolves, visit_Assign_resolves, visit_Attribute_resolves,
      visit_Call_resolves, visit_FunctionDef_resolves,
      visit_Return_resolves.
Qed.
End ServiceProvenanceRules.

Lemma visit_resolves_services root fuel :
  forall self st n st',
    in_tree root n -> service_provenance root st ->
    visit fuel self st n = Ok st' ->
    service_provenance root st'.
Proof.
  induction fuel as [|fuel IH]; intros self st n st' Hn Hp Hrun;
    [discriminate|].
  simpl in Hrun. by eapply visit_node_resolves.
Qed.

Lemma service_provenance_empty root : service_provenance root empty_state.
Proof.
  split; simpl; intros *.
  - by rewrite lookup_empty.
  - by rewrite lookup_empty.
  - intros H. by apply elem_of_nil in H.
Qed.

(** C3 (amended): for a call whose callee is typed [Boto3CreateClientType]
    once the children were visited, the first positional argument, the
    service name, alone decides.  (1) If it resolves as the literal [v] (a
    string literal, or a node typed [StringLiteral v]), the call completes
    and the call node is typed [Boto3ClientType v]; if there is no positional
    argument, or the first one does not resolve as a literal, the call
    completes without writing any type: the store is the one the children
    left.  (2) A method called on such an untyped call,
    [factory(<unresolved>).attr()], writes no type either, on the attribute
    or on the method call.  (3) After a whole analysis, every service listed
    in the final mapping is the literal value that the first argument of
    some client-factory call of the tree resolved to when that call was
    typed: a call whose service name is not resolved accounts for no entry.
    (4) Accordingly the programs [boto3.client(x).m()] with [x] unbound,
    [boto3.client(a + b).m()] with a computed name, and
    [def get(name): boto3.client(name).m()] called as [get(x)], yield the
    empty mapping for every method [m]. *)
Theorem visit_Call_client_factory :
  (forall visit self st st1 i func args keywords starargs kwargs,
     generic_visit visit self st
       (NExpr (Call i func args keywords starargs kwargs)) = Ok st1 ->
     node_inferred_type st1 (expr_id func) = Some Boto3CreateClientType ->
     match head args ≫= literal_string_value st1 with
     | Some v =>
         exists st',
           visit_Call visit self st i func args keywords starargs kwargs
             = Ok st'
           /\ node_inferred_type st' i = Some (Boto3ClientType v)
     | None =>
         visit_Call visit self st i func args keywords starargs kwargs
           = Ok st1
     end) /\
  (forall fuel self st st1 i func args keywords starargs kwargs j attr i2,
     let call := Call i func args keywords starargs kwargs in
     generic_visit (visit fuel) self st (NExpr call) = Ok st1 ->
     node_inferred_type st1 (expr_id func) = Some Boto3CreateClientType ->
     head args ≫= literal_string_value st1 = None ->
     node_inferred_type st1 i = None ->
     node_inferred_type st1 j = None ->
     visit (S (S (S fuel))) self st
       (NExpr (Call i2 (Attribute j call attr) [] [] None None)) = Ok st1) /\
  (forall fuel parsed table st s ms m,
     bind_types (visit fuel) empty_state (parse_code parsed table) = Ok st ->
     collect_api_calls st (NMod parsed) !! s = Some ms -> m ∈ ms ->
     factory_call_site (NMod parsed) (node_types st) s) /\
  (forall method fuel, 7 <= fuel ->
     get_client_calls fuel (unbound_service_ast method) second_argument_table
     = Ok ∅) /\
  (forall a b method fuel, 8 <= fuel ->
     get_client_calls fuel (computed_service_ast a b method)
       computed_service_table = Ok ∅) /\
  (forall method fuel, 10 <= fuel ->
     get_client_calls fuel (parameter_method_ast method)
       parameter_service_table = Ok ∅).
Proof.
  assert (Hrule : forall visit self st st1 i func args keywords starargs kwargs,
            generic_visit visit self st
              (NExpr (Call i func args keywords starargs kwargs)) = Ok st1 ->
            node_inferred_type st1 (expr_id func)
              = Some Boto3CreateClientType ->
            match head args ≫= literal_string_value st1 with
            | Some v =>
                exists st',
                  visit_Call visit self st i func args keywords starargs kwargs
                    = Ok st'
                  /\ node_inferred_type st' i = Some (Boto3ClientType v)
            | None =>
                visit_Call visit self st i func args keywords starargs kwargs
                  = Ok st1
            end).
  { intros visit self st st1 i func args keywords starargs kwargs Hgen Hfunc.
    unfold visit_Call. rewrite Hgen.
    cbn [mbind result_bind]. rewrite Hfunc. cbn [eq_Boto3CreateClientType].
    assert (Hset : forall v,
              node_inferred_type
                (set_node_inferred_type st1 i (Some (Boto3ClientType v))) i
              = Some (Boto3ClientType v)).
    { intros v. unfold node_inferred_type. simpl. by case_decide. }
    destruct args as [|service_arg rest]; simpl; [auto|].
    unfold literal_string_value.
    destruct service_arg; simpl; repeat case_match; simplify_eq; eauto. }
  split_and!; [exact Hrule | | | | |].
  - intros fuel self st st1 i func args keywords starargs kwargs j attr i2
      call Hgen Hfunc Harg Hi Hj.
    assert (Hcall : visit (S fuel) self st (NExpr call) = Ok st1).
    { specialize (Hrule (visit fuel) self st st1 i func args keywords starargs
                    kwargs Hgen Hfunc).
      rewrite Harg in Hrule. exact Hrule. }
    assert (Hattr : visit (S (S fuel)) self st
                      (NExpr (Attribute j call attr)) = Ok st1).
    { rewrite visit_S. cbn [visit_node]. unfold visit_Attribute, generic_visit.
      cbn [iter_child_nodes for_each]. rewrite Hcall.
      cbn [mbind result_bind]. unfold call at 1. cbn [expr_id].
      by rewrite Hi. }
    rewrite visit_S. cbn [visit_node]. unfold visit_Call, generic_visit.
    cbn [iter_child_nodes opt_nodes fmap list_fmap app for_each].
    rewrite Hattr. cbn [mbind result_bind expr_id]. by rewrite Hj.
  - intros fuel parsed table st s ms m Hrun Hs Hm.
    unfold bind_types in Hrun. cbn [parse_code parsed_ast] in Hrun.
    assert (Hp : service_provenance (NMod parsed) st).
    { eapply visit_resolves_services;
        [apply rtc_refl | apply service_provenance_empty | exact Hrun]. }
    destruct (collected_from_node _ _ _ _ _ _ Hs Hm)
      as [(ms0 & Hs0 & _) | (n & _ & Hty)].
    { by rewrite lookup_empty in Hs0. }
    apply log_lookup_elem in Hty.
    destruct (sprov_nodes _ _ Hp _ _ Hty _ s eq_refl eq_refl)
      as (i & func & args & keywords & starargs & kwargs & old
          & Hin & Hsuffix & Hfunc & Harg).
    exists i, func, args, keywords, starargs, kwargs, old.
    split_and!; [by apply in_tree_walk | exact Hsuffix | exact Hfunc
                | exact Harg].
  - intros method fuel Hfuel.
    apply (get_client_calls_enough_fuel 7); [|exact Hfuel].
    rewrite (get_client_calls_of_invocations 7 _ _ []); [reflexivity | |];
      vm_compute; reflexivity.
  - intros a b method fuel Hfuel.
    apply (get_client_calls_enough_fuel 8); [|exact Hfuel].
    rewrite (get_client_calls_of_invocations 8 _ _ []); [reflexivity | |];
      vm_compute; reflexivity.
  - intros method fuel Hfuel.
    apply (get_client_calls_enough_fuel 10); [|exact Hfuel].
    rewrite (get_client_calls_of_invocations 10 _ _ []); [reflexivity | |];
      vm_compute; reflexivity.
Qed.

Lemma visit_Call_client_factory_witness :
  let self := top_engine literal_variable_ast literal_variable_table in
  let st :=
    {| node_types := [];
       symbol_types := <[([], "name") := Some (StringLiteral "s3")]>
                         (symbol_types sdk_imported);
       symbol_nodes := ∅ |} in
  let run := bind_types (visit 8) empty_state
               (parse_code literal_variable_ast literal_variable_table) in
  (exists st',
     visit_Call (visit 4) self st 7 (Attribute 8 (Name 9 "boto3") "client")
                [Name 10 "name"] [] None None = Ok st'
     /\ node_inferred_type st' 7 = Some (Boto3ClientType "s3")) /\
  visit 7 (top_engine (unbound_service_ast "get_object") second_argument_table)
    sdk_imported
    (NExpr (Call 3 (Attribute 4 (client_of 5 6 7 (Name 8 "x")) "get_object")
                 [] [] None None))
  = Ok (set_node_inferred_type
          (set_node_inferred_type
             (set_node_inferred_type sdk_imported 7 (Some Boto3ModuleType))
             6 (Some Boto3CreateClientType))
          8 None) /\
  factory_call_site (NMod literal_variable_ast)
    (node_types (final_state run)) "s3" /\
  get_client_calls 7 (unbound_service_ast "get_object") second_argument_table
  = Ok ∅.
Proof.
  intros self st run.
  destruct visit_Call_client_factory
    as (Hrule & Hchain & Hsite & Hunbound & _ & _).
  split_and!.
  - exact (Hrule (visit 4) self st
             (set_node_inferred_type
                (set_node_inferred_type
                   (set_node_inferred_type st 9 (Some Boto3ModuleType))
                   8 (Some Boto3CreateClientType))
                10 (Some (StringLiteral "s3")))
             7 (Attribute 8 (Name 9 "boto3") "client") [Name 10 "name"]
             [] None None eq_refl eq_refl).
  - apply (Hchain 4 _ sdk_imported _ 5 (Attribute 6 (Name 7 "boto3") "client")
             [Name 8 "x"] [] None None 4 "get_object" 3); reflexivity.
  - apply (Hsite 8 literal_variable_ast literal_variable_table
             (final_state run) "s3" {[ "get_object" ]} "get_object").
    + apply final_state_Ok. vm_compute. reflexivity.
    + reflexivity.
    + apply elem_of_singleton. reflexivity.
  - apply Hunbound. lia.
Defined.

(** A service name that arrives as a parameter leaves no entry. *)
Example parameter_service_yields_nothing :
  get_client_calls 10 parameter_service_ast parameter_service_table = Ok ∅.
Proof. reflexivity. Qed.

(** ** The entry-point preprocessor *)


Section Transformer.
Variable fresh : nid.



End Transformer.









(** *** What the inserted call does *)








(** * Further properties of the analyzer *)

(** ** The scope table as a store *)

(** X1: a type set for a name the local scope declares and does not mark
    global is the type read back for it, and the types read for all other
    names are untouched. *)
Theorem set_then_get_inferred_type
  (self : ChainedSymbolTable) (st : state) (name : string) (t : option ty) :
  scope_symbols (table_scope (_local_table self)) !! name = Some false ->
  exists st',
    set_inferred_type self st name t = Ok st' /\
    get_inferred_type self st' name = Ok t /\
    forall other, other <> name ->
      get_inferred_type self st' other = get_inferred_type self st other.
Proof.
  intros Hname. eexists. split_and!.
  - by apply (set_inferred_type_declared _ _ _ _ false).
  - rewrite (get_inferred_type_not_global _ _ _ Hname).
    unfold symbol_inferred_type. simpl. by rewrite lookup_insert_eq.
  - intros other Hother. unfold get_inferred_type, lookup.
    destruct (scope_symbols (table_scope (_local_table self)) !! other)
      as [[]|]; simpl; [|unfold symbol_inferred_type; simpl|done].
    + destruct (scope_symbols (table_scope (_global_table self)) !! other);
        [|done].
      unfold symbol_inferred_type. simpl.
      rewrite lookup_insert_ne; [done | congruence].
    + rewrite lookup_insert_ne; [done | congruence].
Qed.

Lemma set_then_get_inferred_type_witness :
  let top := {| table_id := []; table_scope := literal_variable_table |} in
  let self := {| _local_table := top; _global_table := top |} in
  exists st',
    set_inferred_type self sdk_imported "name" (Some (StringLiteral "s3"))
      = Ok st' /\
    get_inferred_type self st' "name" = Ok (Some (StringLiteral "s3")) /\
    get_inferred_type self st' "boto3" = Ok (Some Boto3ModuleType).
Proof.
  intros top self.
  destruct (set_then_get_inferred_type self sdk_imported "name"
              (Some (StringLiteral "s3")) eq_refl) as (st' & Hset & Hget & Hrest).
  exists st'. split_and!; [exact Hset | exact Hget |].
  rewrite Hrest; [reflexivity | discriminate].
Defined.

(** X2: inside a scope that marks a name as global (a different table from
    its global one), setting the name's type writes the local symbol while
    reading goes to the global table: the set completes and no name reads
    differently afterwards. *)
Theorem global_name_type_is_not_read_back
  (self : ChainedSymbolTable) (st : state) (name : string) (t : option ty) :
  scope_symbols (table_scope (_local_table self)) !! name = Some true ->
  table_id (_local_table self) <> table_id (_global_table self) ->
  exists st',
    set_inferred_type self st name t = Ok st' /\
    forall n, get_inferred_type self st' n = get_inferred_type self st n.
Proof.
  intros Hname Hids. eexists. split.
  - by apply (set_inferred_type_declared _ _ _ _ true).
  - intros n. unfold get_inferred_type, lookup.
    destruct (scope_symbols (table_scope (_local_table self)) !! n)
      as [[]|] eqn:Hn; simpl; [| |done].
    + destruct (scope_symbols (table_scope (_global_table self)) !! n);
        [|done].
      unfold symbol_inferred_type. simpl.
      rewrite lookup_insert_ne; [done | congruence].
    + unfold symbol_inferred_type. simpl.
      rewrite lookup_insert_ne; [done | congruence].
Qed.

Lemma global_name_type_is_not_read_back_witness :
  let self :=
    {| _local_table :=
         {| table_id := [0];
            table_scope := Scope "make" {["boto3" := true]} [] |};
       _global_table :=
         {| table_id := []; table_scope := interprocedural_table |} |} in
  exists st',
    set_inferred_type self sdk_imported "boto3" None = Ok st' /\
    get_inferred_type self st' "boto3" = Ok (Some Boto3ModuleType).
Proof.
  intros self.
  destruct (global_name_type_is_not_read_back self sdk_imported "boto3" None)
    as (st' & Hset & Hget).
  - reflexivity.
  - discriminate.
  - exists st'. split; [exact Hset|]. rewrite Hget. reflexivity.
Defined.

(** X3: a definition registered for a name the local scope declares and
    does not mark global is the one looked up afterwards, and the probe
    answers yes. *)
Theorem register_then_lookup_ast_node
  (self : ChainedSymbolTable) (st : state) (name : string) (node : stmt) :
  scope_symbols (table_scope (_local_table self)) !! name = Some false ->
  exists st',
    register_ast_node_for_symbol self st name node = Ok st' /\
    lookup_ast_node_for_symbol self st' name = Ok node /\
    has_ast_node_for_symbol self st' name = true.
Proof.
  intros Hname.
  unfold has_ast_node_for_symbol, register_ast_node_for_symbol,
    lookup_ast_node_for_symbol, lookup.
  rewrite Hname. simpl. eexists. split; [reflexivity|].
  simpl. by rewrite lookup_insert_eq.
Qed.

Lemma register_then_lookup_ast_node_witness :
  let self := symbol_table (parse_code self_call_ast self_call_table) in
  exists st',
    register_ast_node_for_symbol self empty_state "loop" self_call_def
      = Ok st' /\
    lookup_ast_node_for_symbol self st' "loop" = Ok self_call_def /\
    has_ast_node_for_symbol self st' "loop" = true.
Proof.
  intros self.
  exact (register_then_lookup_ast_node self empty_state "loop" self_call_def
           eq_refl).
Defined.

(** X4: probing for a definition never raises.  For a name the local scope
    does not declare, for a global-marked name the global scope does not
    declare, and for a declared name with nothing registered, the answer is
    no, while the lookup itself raises [KeyError], [KeyError] and a
    [ValueError] whose message ends with the name. *)
Theorem has_ast_node_for_symbol_absent
  (self : ChainedSymbolTable) (st : state) (name : string) :
  (scope_symbols (table_scope (_local_table self)) !! name = None ->
   lookup_ast_node_for_symbol self st name = Raise (KeyError name) /\
   has_ast_node_for_symbol self st name = false) /\
  (scope_symbols (table_scope (_local_table self)) !! name = Some true ->
   scope_symbols (table_scope (_global_table self)) !! name = None ->
   lookup_ast_node_for_symbol self st name = Raise (KeyError name) /\
   has_ast_node_for_symbol self st name = false) /\
  (scope_symbols (table_scope (_local_table self)) !! name = Some false ->
   symbol_nodes st !! (table_id (_local_table self), name) = None ->
   lookup_ast_node_for_symbol self st name
     = Raise (ValueError
                (String.append "No AST node registered for symbol: " name)) /\
   has_ast_node_for_symbol self st name = false).
Proof.
  unfold has_ast_node_for_symbol, lookup_ast_node_for_symbol, lookup.
  split_and!.
  - intros ->. done.
  - intros -> ->. done.
  - intros -> Hnone. simpl. by rewrite Hnone.
Qed.

Lemma has_ast_node_for_symbol_absent_witness :
  let self := symbol_table (parse_code self_call_ast self_call_table) in
  has_ast_node_for_symbol self empty_state "missing" = false /\
  lookup_ast_node_for_symbol self empty_state "loop"
    = Raise (ValueError "No AST node registered for symbol: loop") /\
  has_ast_node_for_symbol self empty_state "loop" = false.
Proof.
  intros self.
  destruct (has_ast_node_for_symbol_absent self empty_state "missing")
    as (Hundeclared & _ & _).
  destruct (has_ast_node_for_symbol_absent self empty_state "loop")
    as (_ & _ & Hunregistered).
  split.
  - apply Hundeclared. reflexivity.
  - apply Hunregistered; reflexivity.
Defined.

(** ** Child scopes *)

Lemma find_child_None t name :
  find_child t name = None <->
  Forall (fun c => get_name c <> name) (get_children t).
Proof.
  unfold find_child. split.
  - intros Hnone. apply Forall_forall. intros c Hc Hname.
    apply list_elem_of_In in Hc.
    pose proof (find_none _ _ Hnone c Hc) as Hneq. simpl in Hneq.
    apply String.eqb_neq in Hneq. done.
  - intros Hall. destruct (find _ _) as [c|] eqn:Hfind; [|done].
    apply find_some in Hfind as [Hc Hname].
    apply String.eqb_eq in Hname.
    rewrite Forall_forall in Hall.
    by destruct (Hall c (proj2 (list_elem_of_In _ _) Hc)).
Qed.

Lemma find_child_Some t name child :
  find_child t name = Some child ->
  child ∈ get_children t /\ get_name child = name.
Proof.
  unfold find_child. intros Hfind. apply find_some in Hfind as [Hc Hname].
  split; [by apply list_elem_of_In | by apply String.eqb_eq].
Qed.

(** X5: the child scope of a name is searched among the children of the
    local table first and of the global table second.  A scope found is
    named as asked and is chained to the table it was found under; when no
    child of either table bears the name, the lookup raises a [ValueError]
    whose message ends with the name. *)
Theorem lookup_sub_namespace_local_first
  (self : ChainedSymbolTable) (name : string) :
  (forall sub,
     lookup_sub_namespace self name = Ok sub ->
     get_name (_local_table sub) = name /\
     ((_local_table sub ∈ get_children (_local_table self) /\
       _global_table sub = _local_table self) \/
      (Forall (fun c => get_name c <> name) (get_children (_local_table self)) /\
       _local_table sub ∈ get_children (_global_table self) /\
       _global_table sub = _global_table self))) /\
  (Exists (fun c => get_name c = name) (get_children (_local_table self)) ->
   exists sub, lookup_sub_namespace self name = Ok sub /\
               _global_table sub = _local_table self) /\
  (Forall (fun c => get_name c <> name) (get_children (_local_table self)) ->
   Forall (fun c => get_name c <> name) (get_children (_global_table self)) ->
   lookup_sub_namespace self name
   = Raise (ValueError (String.append "Unknown symbol name: " name))).
Proof.
  unfold lookup_sub_namespace. split_and!.
  - intros sub Hsub.
    destruct (find_child (_local_table self) name) as [c|] eqn:Hl.
    + simplify_eq. simpl. apply find_child_Some in Hl as [? ?]. auto.
    + destruct (find_child (_global_table self) name) as [c|] eqn:Hg;
        simplify_eq.
      simpl. apply find_child_Some in Hg as [? ?].
      apply find_child_None in Hl. auto.
  - intros Hex.
    destruct (find_child (_local_table self) name) as [c|] eqn:Hl; [eauto|].
    apply find_child_None in Hl. apply Exists_exists in Hex as (c & Hc & Hn).
    rewrite Forall_forall in Hl. by destruct (Hl c Hc).
  - intros Hl Hg. apply find_child_None in Hl, Hg. by rewrite Hl, Hg.
Qed.

Lemma lookup_sub_namespace_local_first_witness :
  let top := symbol_table (parse_code self_call_ast self_call_table) in
  let loop :=
    {| _local_table :=
         {| table_id := [0];
            table_scope := Scope "loop" {["loop" := true]} [] |};
       _global_table := _local_table top |} in
  lookup_sub_namespace top "loop" = Ok loop /\
  lookup_sub_namespace loop "loop" = Ok loop /\
  lookup_sub_namespace top "other"
    = Raise (ValueError "Unknown symbol name: other").
Proof.
  intros top loop.
  destruct (lookup_sub_namespace_local_first top "other") as (_ & _ & Hnone).
  destruct (lookup_sub_namespace_local_first loop "loop") as (Hfound & _ & _).
  split_and!.
  - reflexivity.
  - destruct (Hfound loop eq_refl) as [_ [[Hin _] | (_ & _ & Hglobal)]].
    + vm_compute in Hin. by apply elem_of_nil in Hin.
    + reflexivity.
  - apply Hnone.
    + repeat constructor. discriminate.
    + repeat constructor. discriminate.
Defined.

(** ** Mapping arguments onto parameters *)

Lemma map_function_params_frame sub di f params defaults body decorator_list :
  forall args st st',
    _map_function_params sub st args
      (FunctionDef di f params defaults body decorator_list) = Ok st' ->
    forall key,
      (forall k arg pj pid t,
         args !! k = Some arg -> params !! k = Some (Name pj pid) ->
         node_inferred_type st (expr_id arg) = Some t ->
         key <> (table_id (_local_table sub), pid)) ->
      symbol_types st' !! key = symbol_types st !! key.
Proof.
  unfold _map_function_params.
  induction params as [|p params IH]; intros args st st' Hrun key Hkey.
  - rewrite zip_with_nil_r in Hrun. simpl in Hrun. by simplify_eq.
  - destruct args as [|a args]; simpl in Hrun; [by simplify_eq|].
    apply bind_Ok in Hrun as (st1 & Hstep & Hrest).
    assert (Hst1 : node_types st1 = node_types st /\
                   symbol_types st1 !! key = symbol_types st !! key).
    { destruct (node_inferred_type st (expr_id a)) as [ta|] eqn:Hta;
        [|by simplify_eq].
      destruct p; try discriminate.
      apply set_inferred_type_Ok in Hstep as (Hn & _ & Hs).
      split; [done|]. rewrite Hs, lookup_insert_ne; [done|].
      intros <-. by eapply (Hkey 0). }
    destruct Hst1 as [Hnodes <-].
    apply (IH _ _ _ Hrest). intros k arg pj pid t Ha Hp Ht.
    apply (Hkey (S k) arg pj pid t Ha Hp).
    unfold node_inferred_type in *. by rewrite <- Hnodes.
Qed.

Lemma map_function_params_completes sub di f params defaults body decos :
  Forall (fun p => exists pj pid,
            p = Name pj pid /\
            is_Some (scope_symbols (table_scope (_local_table sub)) !! pid))
         params ->
  forall args st,
    exists st',
      _map_function_params sub st args
        (FunctionDef di f params defaults body decos) = Ok st'.
Proof.
  unfold _map_function_params.
  induction 1 as [|p params (pj & pid & -> & [g Hg]) _ IH]; intros args st.
  - rewrite zip_with_nil_r. simpl. eauto.
  - destruct args as [|a args]; simpl; [eauto|].
    destruct (node_inferred_type st (expr_id a)).
    + rewrite (set_inferred_type_declared _ _ _ _ _ Hg). simpl. apply IH.
    + simpl. apply IH.
Qed.

(** X6: mapping call arguments onto declared simple-name parameters never
    fails on arity: for any number of arguments the mapping completes.
    Afterwards a parameter whose positional argument has an inferred type
    records that type, and a parameter with no argument at its position, or
    with an untyped one, keeps whatever type the child scope recorded for it
    before (the parameters bearing distinct names). *)
Theorem map_function_params_any_arity
  (sub : ChainedSymbolTable) (st : state) (args : list expr) (di : nid)
  (f : string) (params defaults : list expr) (body : list stmt)
  (decorator_list : list expr) :
  Forall (fun p => exists pj pid,
            p = Name pj pid /\
            is_Some (scope_symbols (table_scope (_local_table sub)) !! pid))
         params ->
  distinct_parameters params ->
  exists st',
    _map_function_params sub st args
      (FunctionDef di f params defaults body decorator_list) = Ok st' /\
    node_types st' = node_types st /\
    forall k pj pid,
      params !! k = Some (Name pj pid) ->
      symbol_types st' !! (table_id (_local_table sub), pid)
      = match args !! k ≫= (fun a => node_inferred_type st (expr_id a)) with
        | Some t => Some (Some t)
        | None => symbol_types st !! (table_id (_local_table sub), pid)
        end.
Proof.
  intros Hparams Hdistinct.
  destruct (map_function_params_completes sub di f params defaults body
              decorator_list Hparams args st) as [st' Hrun].
  exists st'. split; [exact Hrun|].
  destruct (map_function_params_maps _ _ _ _ _ _ _ _ _ _ Hrun)
    as (Hnodes & _ & _ & Hmap).
  split; [exact Hnodes|].
  intros k pj pid Hk.
  destruct (args !! k) as [a|] eqn:Ha; simpl;
    [destruct (node_inferred_type st (expr_id a)) as [t|] eqn:Ht|].
  - by apply (Hmap Hdistinct k a pj pid t).
  - apply (map_function_params_frame _ _ _ _ _ _ _ _ _ _ Hrun).
    intros k' arg pj' pid' t Ha' Hp' Ht' [= <-].
    assert (k' = k) as -> by (by eapply Hdistinct). congruence.
  - apply (map_function_params_frame _ _ _ _ _ _ _ _ _ _ Hrun).
    intros k' arg pj' pid' t Ha' Hp' Ht' [= <-].
    assert (k' = k) as -> by (by eapply Hdistinct). congruence.
Qed.

Lemma map_function_params_any_arity_witness :
  let get :=
    {| _local_table :=
         {| table_id := [0];
            table_scope :=
              Scope "get" (<["boto3" := true]> {["name" := false]}) [] |};
       _global_table :=
         {| table_id := []; table_scope := parameter_service_table |} |} in
  let st := set_node_inferred_type sdk_imported 20
              (Some (StringLiteral "s3")) in
  exists st',
    _map_function_params get st [Name 20 "a"; Name 21 "b"; Name 22 "c"]
      (FunctionDef 2 "get" [Name 3 "name"] [] [] []) = Ok st' /\
    symbol_types st' !! ([0], "name") = Some (Some (StringLiteral "s3")).
Proof.
  intros get st.
  destruct (map_function_params_any_arity get st
              [Name 20 "a"; Name 21 "b"; Name 22 "c"] 2 "get"
              [Name 3 "name"] [] [] [])
    as (st' & Hrun & _ & Hparams).
  - repeat constructor. exists 3, "name". split; [reflexivity|].
    vm_compute. eauto.
  - intros k k' pj pj' pid Hk Hk'.
    destruct k as [|k]; [|destruct k; discriminate Hk].
    destruct k' as [|k']; [reflexivity | destruct k'; discriminate Hk'].
  - exists st'. split; [exact Hrun|].
    exact (Hparams 0 3 "name" eq_refl).
Defined.

(** ** What the collector returns *)

(** X7: the collected mapping holds exactly the invocations typed on the
    nodes of the tree: a method [m] is listed under a service [s] if and only
    if some node under the root carries the type
    [Boto3ClientMethodCallType s m]; and no service is listed with an empty
    set of methods. *)
Theorem collect_api_calls_exactly
  (st : state) (n : node) (s m : string) :
  ((exists ms, collect_api_calls st n !! s = Some ms /\ m ∈ ms) <->
   (exists x, x ∈ walk n /\
      node_inferred_type st (node_id x)
      = Some (Boto3ClientMethodCallType s m))) /\
  collect_api_calls st n !! s <> Some ∅.
Proof.
  split; [split|].
  - intros (ms & Hs & Hm).
    destruct (collected_from_node _ _ _ _ _ _ Hs Hm)
      as [(ms0 & Hs0 & _) | Hx]; [|exact Hx].
    by rewrite lookup_empty in Hs0.
  - intros (x & Hx & Hty). unfold collect_api_calls.
    apply list_elem_of_split in Hx as (l1 & l2 & ->).
    rewrite foldl_app. cbn [foldl]. apply collector_keeps.
    unfold collector_visit at 1. rewrite Hty. apply add_api_call_new.
  - unfold collect_api_calls.
    assert (Hgen : forall l (acc : gmap string (gset string)),
              acc !! s <> Some ∅ ->
              foldl (collector_visit st) acc l !! s <> Some ∅).
    { induction l as [|x l IH]; intros acc Hacc; [done|].
      simpl. apply IH. unfold collector_visit.
      destruct (node_inferred_type st (node_id x)) as [[]|]; auto.
      unfold add_api_call.
      destruct (decide (service_name = s)) as [-> | Hne].
      - rewrite lookup_insert_eq. intros [= Hempty].
        assert (method_name ∈ (∅ : gset string)) as Hin
          by (rewrite <- Hempty; apply elem_of_union_l;
              by apply elem_of_singleton).
        by apply not_elem_of_empty in Hin.
      - by rewrite lookup_insert_ne. }
    apply Hgen. by rewrite lookup_empty.
Qed.

(** ** Chains of the SDK, for any service and method *)

(** X8: for every service name and method name, the one-statement chain
    [boto3.client(<service>).<method>()] after [import boto3] yields exactly
    the mapping from that service to that method, whenever the recursion
    depth allowed is at least 7. *)
Theorem one_shot_chain_collected (service method : string) (fuel : nat) :
  7 <= fuel ->
  get_client_calls fuel (one_shot_ast service method) sdk_only_table
  = Ok {[ service := {[ method ]} ]}.
Proof.
  intros Hfuel. apply (get_client_calls_enough_fuel 7); [|exact Hfuel].
  rewrite (get_client_calls_of_invocations 7 _ _ [(service, method)]).
  - simpl. by rewrite add_api_call_empty.
  - vm_compute. reflexivity.
  - vm_compute. reflexivity.
Qed.

Lemma one_shot_chain_collected_witness :
  get_client_calls 7 (one_shot_ast "dynamodb" "describe_table") sdk_only_table
  = Ok {[ "dynamodb" := {[ "describe_table" ]} ]}.
Proof. apply one_shot_chain_collected. lia. Defined.

(** X9: for every service name and method name, binding the client to a
    variable first, [client = boto3.client(<service>)] then
    [client.<method>()], yields exactly the mapping from that service to that
    method, whenever the recursion depth allowed is at least 6. *)
Theorem direct_chain_collected (service method : string) (fuel : nat) :
  6 <= fuel ->
  get_client_calls fuel (direct_chain_ast service method) direct_chain_table
  = Ok {[ service := {[ method ]} ]}.
Proof.
  intros Hfuel. apply (get_client_calls_enough_fuel 6); [|exact Hfuel].
  rewrite (get_client_calls_of_invocations 6 _ _ [(service, method)]).
  - simpl. by rewrite add_api_call_empty.
  - vm_compute. reflexivity.
  - vm_compute. reflexivity.
Qed.

Lemma direct_chain_collected_witness :
  get_client_calls 6 (direct_chain_ast "s3" "list_objects") direct_chain_table
  = Ok {[ "s3" := {[ "list_objects" ]} ]}.
Proof. apply direct_chain_collected. lia. Defined.

(** X10: a function that bears the name of the scope being walked is not
    registered for a later call but has its body visited on the spot.  At the
    top of a module, whose scope is named [top], the calls inside an
    uncalled [def top()] are therefore reported. *)
Theorem function_named_like_scope_is_walked
  (service method : string) (fuel : nat) :
  8 <= fuel ->
  get_client_calls fuel (function_named_top_ast service method)
    function_named_top_table
  = Ok {[ service := {[ method ]} ]}.
Proof.
  intros Hfuel. apply (get_client_calls_enough_fuel 8); [|exact Hfuel].
  rewrite (get_client_calls_of_invocations 8 _ _ [(service, method)]).
  - simpl. by rewrite add_api_call_empty.
  - vm_compute. reflexivity.
  - vm_compute. reflexivity.
Qed.

Lemma function_named_like_scope_is_walked_witness :
  get_client_calls 8 (function_named_top_ast "sqs" "send_message")
    function_named_top_table
  = Ok {[ "sqs" := {[ "send_message" ]} ]}.
Proof. apply function_named_like_scope_is_walked. lia. Defined.

(** ** Definitions alone, and failures *)

Lemma only_defines_visit fuel parsed table st s :
  only_defines table s ->
  exists st',
    visit (S fuel) (top_engine parsed table) st (NStmt s) = Ok st' /\
    node_types st' = node_types st.
Proof.
  intros Hs. destruct s; try done; cbn [visit visit_node].
  - destruct Hs as [Hname [g Hg]].
    unfold visit_FunctionDef, top_engine. cbn [_symbol_table parse_code
      symbol_table _local_table table_scope].
    unfold get_name. cbn [table_scope].
    apply String.eqb_neq in Hname. rewrite Hname.
    unfold register_ast_node_for_symbol, lookup.
    cbn [_local_table table_scope]. rewrite Hg. simpl. eauto.
  - unfold visit_ClassDef. eauto.
Qed.

(** X11: a module made only of class definitions and of function
    definitions (declared in the module scope, not named like it) is analysed
    to the empty mapping at any recursion depth from 2 on, whatever the
    bodies contain: nothing inside a class or an uncalled function is
    reported by the plain analysis. *)
Theorem definitions_alone_yield_nothing
  (fuel : nat) (i : nid) (body : list stmt) (table : scope) :
  Forall (only_defines table) body ->
  get_client_calls (S (S fuel)) (PyModule i body) table = Ok ∅.
Proof.
  intros Hbody. rewrite get_client_calls_module.
  assert (Hrun : forall l, Forall (only_defines table) l ->
            forall st, exists st',
              for_each (visit (S fuel) (top_engine (PyModule i body) table))
                st (NStmt <$> l) = Ok st' /\
              node_types st' = node_types st).
  { induction 1 as [|s l Hs _ IH]; intros st; [by eexists|].
    cbn [fmap list_fmap for_each].
    destruct (only_defines_visit fuel (PyModule i body) table st s Hs)
      as (st1 & -> & Hst1).
    cbn [mbind result_bind]. destruct (IH st1) as (st' & -> & Hst').
    exists st'. split; [done | congruence]. }
  destruct (Hrun body Hbody empty_state) as (st' & -> & Hlog).
  cbn [mbind result_bind]. rewrite collect_api_calls_pairs.
  by rewrite (invocations_no_annotations _ _ Hlog).
Qed.

Lemma definitions_alone_yield_nothing_witness :
  get_client_calls 2 nested_view_ast
    (Scope "top" {["outer" := false]} [Scope "outer" ∅ []]) = Ok ∅.
Proof.
  apply (definitions_alone_yield_nothing 0). repeat constructor.
  - discriminate.
  - vm_compute. eauto.
Defined.

(** X12: the analysis keeps no partial result.  When the statements of a
    module before some statement are analysed and that statement raises, the
    whole analysis raises the same exception, whatever follows. *)
Theorem first_raise_aborts
  (fuel : nat) (i : nid) (pre post : list stmt) (s : stmt) (table : scope)
  (st1 : state) (e : exn) :
  let self := top_engine (PyModule i (pre ++ s :: post)) table in
  for_each (visit (S fuel) self) empty_state (NStmt <$> pre) = Ok st1 ->
  visit (S fuel) self st1 (NStmt s) = Raise e ->
  get_client_calls (S (S fuel)) (PyModule i (pre ++ s :: post)) table
  = Raise e.
Proof.
  intros self Hpre Hs. rewrite get_client_calls_module. fold self.
  rewrite fmap_app, for_each_app, Hpre.
  cbn [mbind result_bind fmap list_fmap for_each]. by rewrite Hs.
Qed.

Lemma first_raise_aborts_witness :
  get_client_calls 7
    (PyModule 0
       ([Import 1 [boto3_alias]]
          ++ Expr 20 (Name 21 "undeclared")
          :: [Expr 2 (Call 3 (Attribute 4 (client_of 5 6 7 (Str 8 "s3"))
                                        "list_objects") [] [] None None)]))
    sdk_only_table
  = Raise (KeyError "undeclared").
Proof.
  eapply (first_raise_aborts 5 0 [Import 1 [boto3_alias]]); reflexivity.
Defined.

(** ** Recursion in the analysed program *)

Lemma self_call_runs_out
  (sub : ChainedSymbolTable) (f : string) (di ei ci ni : nid)
  (defaults : list expr) (rest : list stmt) (decorator_list : list expr) :
  let def :=
    FunctionDef di f [] defaults
      (Expr ei (Call ci (Name ni f) [] [] None None) :: rest)
      decorator_list in
  let self := {| _symbol_table := sub; _current_ast_namespace := NStmt def |} in
  get_name (_local_table sub) = f ->
  scope_symbols (table_scope (_local_table sub)) !! f = Some true ->
  is_Some (scope_symbols (table_scope (_global_table sub)) !! f) ->
  lookup_sub_namespace sub f = Ok sub ->
  forall fuel st,
    symbol_nodes st !! (table_id (_global_table sub), f) = Some def ->
    symbol_inferred_type st (table_id (_global_table sub), f) = None ->
    visit fuel self st (NStmt def) = OutOfFuel.
Proof.
  intros def self Hname Hlocal [g Hglobal] Hsub fuel.
  induction fuel as [fuel IH] using lt_wf_ind. intros st Hreg Hty.
  destruct fuel as [|n]; [reflexivity|].
  rewrite visit_S. cbn [visit_node def]. unfold visit_FunctionDef.
  cbn [_symbol_table self]. rewrite Hname, String.eqb_refl.
  cbn [fmap list_fmap for_each].
  destruct n as [|n]; [reflexivity|].
  rewrite visit_S. cbn [visit_node]. unfold generic_visit at 1.
  cbn [iter_child_nodes for_each].
  destruct n as [|n]; [reflexivity|].
  rewrite visit_S. cbn [visit_node]. unfold visit_Call, generic_visit.
  cbn [iter_child_nodes opt_nodes fmap list_fmap app for_each].
  destruct n as [|n]; [reflexivity|].
  rewrite visit_S. cbn [visit_node]. unfold visit_Name.
  cbn [_symbol_table self].
  assert (Hget : get_inferred_type sub st f = Ok None).
  { unfold get_inferred_type, lookup. rewrite Hlocal.
    cbn [mbind result_bind is_global]. rewrite Hglobal. by rewrite Hty. }
  rewrite Hget. cbn [mbind result_bind].
  set (st1 := set_node_inferred_type st ni None).
  assert (Hcallee : node_inferred_type st1 (expr_id (Name ni f)) = None).
  { unfold node_inferred_type. simpl. by rewrite decide_True. }
  rewrite Hcallee. cbn [eq_Boto3CreateClientType].
  assert (Hdef : lookup_ast_node_for_symbol sub st1 f = Ok def).
  { unfold lookup_ast_node_for_symbol, lookup. rewrite Hlocal.
    cbn [mbind result_bind is_global]. rewrite Hglobal.
    cbn [mbind result_bind]. simpl. by rewrite Hreg. }
  unfold has_ast_node_for_symbol. rewrite Hdef.
  unfold _infer_function_call, self. cbn [_symbol_table]. rewrite Hsub, Hdef.
  cbn [mbind result_bind]. unfold _map_function_params at 1.
  cbn [def zip zip_with for_each mbind result_bind].
  unfold bind_types. cbn [symbol_table parsed_ast].
  fold def. fold self.
  rewrite (IH (S n)); [reflexivity | lia | exact Hreg | exact Hty].
Qed.

(** X13: the engine has no guard against recursion.  When a function's body
    starts with a plain call of the function itself, and the function's scope
    refers to its own name as a global under which the definition is
    registered and still untyped, analysing the definition in its scope
    re-enters the definition with the same scope and never completes: the
    visit exhausts every recursion depth.  So does the whole analysis of the
    module that defines such a function [loop] and calls it. *)
Theorem self_call_never_completes :
  (forall (sub : ChainedSymbolTable) (f : string) (di ei ci ni : nid)
          (defaults : list expr) (rest : list stmt)
          (decorator_list : list expr),
    let def :=
      FunctionDef di f [] defaults
        (Expr ei (Call ci (Name ni f) [] [] None None) :: rest)
        decorator_list in
    let self := {| _symbol_table := sub; _current_ast_namespace := NStmt def |} in
    get_name (_local_table sub) = f ->
    scope_symbols (table_scope (_local_table sub)) !! f = Some true ->
    is_Some (scope_symbols (table_scope (_global_table sub)) !! f) ->
    lookup_sub_namespace sub f = Ok sub ->
    forall fuel st,
      symbol_nodes st !! (table_id (_global_table sub), f) = Some def ->
      symbol_inferred_type st (table_id (_global_table sub), f) = None ->
      visit fuel self st (NStmt def) = OutOfFuel) /\
  (forall fuel,
     get_client_calls fuel self_call_ast self_call_table = OutOfFuel).
Proof.
  split; [exact self_call_runs_out|].
  intros fuel.
  destruct fuel as [|[|[|[|fuel]]]]; try reflexivity.
  unfold self_call_ast. rewrite get_client_calls_module.
  cbn [fmap list_fmap for_each].
  rewrite visit_S. cbn [visit_node self_call_def]. unfold visit_FunctionDef.
  replace (String.eqb "loop" _) with false by reflexivity.
  replace (register_ast_node_for_symbol _ _ _ _)
    with (Ok {| node_types := []; symbol_types := ∅;
                symbol_nodes := {[ ([], "loop") := self_call_def ]} |})
    by reflexivity.
  cbn [mbind result_bind].
  rewrite visit_S. cbn [visit_node]. unfold generic_visit at 1.
  cbn [iter_child_nodes for_each].
  rewrite visit_S. cbn [visit_node]. unfold visit_Call, generic_visit.
  cbn [iter_child_nodes opt_nodes fmap list_fmap app for_each].
  rewrite visit_S. cbn [visit_node].
  replace (visit_Name _ _ _ _)
    with (Ok {| node_types := [(7, None)]; symbol_types := ∅;
                symbol_nodes := {[ ([], "loop") := self_call_def ]} |})
    by reflexivity.
  cbn [mbind result_bind].
  replace (node_inferred_type _ (expr_id (Name 7 "loop"))) with (@None ty)
    by reflexivity.
  cbn [eq_Boto3CreateClientType].
  replace (has_ast_node_for_symbol _ _ _) with true by reflexivity.
  unfold _infer_function_call.
  replace (lookup_sub_namespace _ _)
    with (Ok {| _local_table :=
                  {| table_id := [0];
                     table_scope := Scope "loop" {["loop" := true]} [] |};
                _global_table :=
                  {| table_id := []; table_scope := self_call_table |} |})
    by reflexivity.
  replace (lookup_ast_node_for_symbol _ _ _) with (Ok self_call_def)
    by reflexivity.
  cbn [mbind result_bind].
  replace (_map_function_params _ _ _ _)
    with (Ok {| node_types := [(7, None)]; symbol_types := ∅;
                symbol_nodes := {[ ([], "loop") := self_call_def ]} |})
    by reflexivity.
  cbn [mbind result_bind]. unfold bind_types. cbn [symbol_table parsed_ast].
  rewrite (self_call_runs_out _ "loop" 1 2 3 4 [] [] []);
    try reflexivity.
  vm_compute. eauto.
Qed.

Lemma self_call_never_completes_witness :
  let loop :=
    {| _local_table :=
         {| table_id := [0];
            table_scope := Scope "loop" {["loop" := true]} [] |};
       _global_table := {| table_id := []; table_scope := self_call_table |} |} in
  let st := {| node_types := []; symbol_types := ∅;
               symbol_nodes := {[ ([], "loop") := self_call_def ]} |} in
  visit 1000 {| _symbol_table := loop;
                _current_ast_namespace := NStmt self_call_def |}
        st (NStmt self_call_def) = OutOfFuel /\
  get_client_calls 1000 self_call_ast self_call_table = OutOfFuel.
Proof.
  intros loop st.
  destruct self_call_never_completes as [Hgeneral Hsample].
  split; [|apply Hsample].
  apply (Hgeneral loop "loop" 1 2 3 4 [] [] []).
  - reflexivity.
  - reflexivity.
  - vm_compute. eauto.
  - reflexivity.
  - reflexivity.
  - reflexivity.
Defined.

(** ** The preprocessor on modules without views *)

Lemma transform_stmt_no_view fresh :
  forall s, no_view s = true -> transform_stmt fresh s = [s].
Proof.
  fix IH 1. intros s Hs. destruct s; cbn [transform_stmt no_view] in *;
    try reflexivity.
  - by destruct (_is_chalice_view decorator_list).
  - do 2 f_equal. induction body as [|b body IHbody]; [reflexivity|].
    cbn [forallb flat_map] in *. apply andb_true_iff in Hs as [Hb Hbody].
    by rewrite (IH b Hb), (IHbody Hbody).
  - do 2 f_equal. induction children as [|[e | s] children IHchildren];
      [reflexivity | |]; cbn [forallb flat_map] in *.
    + by rewrite (IHchildren Hs).
    + apply andb_true_iff in Hs as [Hs Hchildren].
      by rewrite (IH s Hs), (IHchildren Hchildren).
Qed.

Lemma transform_body_no_view fresh body :
  forallb no_view body = true ->
  flat_map (transform_stmt fresh) body = body.
Proof.
  induction body as [|s body IH]; [reflexivity|].
  cbn [forallb flat_map]. intros Hs. apply andb_true_iff in Hs as [Hs Hbody].
  by rewrite (transform_stmt_no_view _ _ Hs), (IH Hbody).
Qed.

(** X14: when no function definition the preprocessor visits (outside
    other function definitions) is decorated as a view, the preprocessor
    returns the module unchanged, and the application-mode analysis returns
    what the plain analysis returns, at every recursion depth. *)
Theorem app_mode_without_views_is_plain
  (i : nid) (body : list stmt) :
  forallb no_view body = true ->
  AppViewTransformer_visit (PyModule i body) = PyModule i body /\
  forall fuel table,
    get_client_calls_for_app fuel (PyModule i body) table
    = get_client_calls fuel (PyModule i body) table.
Proof.
  intros Hbody.
  assert (Hid : AppViewTransformer_visit (PyModule i body) = PyModule i body).
  { unfold AppViewTransformer_visit. by rewrite transform_body_no_view. }
  split; [exact Hid|].
  intros fuel table. unfold get_client_calls_for_app, get_client_calls.
  by rewrite Hid.
Qed.

Lemma app_mode_without_views_is_plain_witness :
  AppViewTransformer_visit nested_view_ast = nested_view_ast /\
  get_client_calls_for_app 8 interprocedural_ast interprocedural_table
  = Ok {[ "s3" := {[ "put_object" ]} ]}.
Proof.
  split.
  - apply (app_mode_without_views_is_plain 0). reflexivity.
  - unfold interprocedural_ast.
    match goal with
    | |- get_client_calls_for_app _ (PyModule ?i ?b) _ = _ =>
        rewrite (proj2 (app_mode_without_views_is_plain i b eq_refl))
    end.
    reflexivity.
Defined.

(** ** Errors of the scope table *)

(** X15: reading a type, setting a type and registering a definition raise
    [KeyError] exactly when the local scope does not declare the name,
    whatever the store holds; in particular a global-marked name that the
    global scope lacks is read as "no type" without an error. *)
Theorem scope_table_raises_iff_undeclared
  (self : ChainedSymbolTable) (st : state) (name : string) :
  let undeclared :=
    scope_symbols (table_scope (_local_table self)) !! name = None in
  (get_inferred_type self st name = Raise (KeyError name) <-> undeclared) /\
  (undeclared \/ exists t, get_inferred_type self st name = Ok t) /\
  (forall t,
     (set_inferred_type self st name t = Raise (KeyError name) <-> undeclared)
     /\ (undeclared \/ exists st', set_inferred_type self st name t = Ok st'))
  /\
  (forall node,
     (register_ast_node_for_symbol self st name node = Raise (KeyError name)
      <-> undeclared)
     /\ (undeclared \/
         exists st', register_ast_node_for_symbol self st name node = Ok st')).
Proof.
  intros undeclared. unfold undeclared, get_inferred_type, set_inferred_type,
    register_ast_node_for_symbol, lookup.
  destruct (scope_symbols (table_scope (_local_table self)) !! name)
    as [g|] eqn:Hlocal; cbn [mbind result_bind is_global].
  - split_and!.
    + destruct g; [|done].
      by destruct (scope_symbols (table_scope (_global_table self)) !! name).
    + right. destruct g; [|eauto].
      destruct (scope_symbols (table_scope (_global_table self)) !! name);
        eauto.
    + intros t. split; [done | eauto].
    + intros node. split; [done | eauto].
  - split_and!; [done | by left | intros; split; [done | by left]..].
Qed.

Lemma scope_table_raises_iff_undeclared_witness :
  let self := symbol_table (parse_code aliased_import_ast aliased_import_table) in
  get_inferred_type self empty_state "boto3" = Raise (KeyError "boto3") /\
  set_inferred_type self empty_state "boto3" (Some Boto3ModuleType)
    = Raise (KeyError "boto3").
Proof.
  intros self.
  destruct (scope_table_raises_iff_undeclared self empty_state "boto3")
    as (Hget & _ & Hset & _).
  split.
  - apply Hget. reflexivity.
  - apply (Hset (Some Boto3ModuleType)). reflexivity.
Defined.

(** ** Lambda expressions *)

(** X16: lambda expressions are skipped.  Whatever the parameters and the
    body of the lambda bound to [f], and although [f] is then called, the
    module yields the empty mapping whenever the recursion depth allowed is
    at least 4. *)
Theorem lambda_bodies_yield_nothing
  (args defaults : list expr) (body : expr) (fuel : nat) :
  4 <= fuel ->
  get_client_calls fuel (lambda_ast args defaults body) lambda_table = Ok ∅.
Proof.
  intros Hfuel. apply (get_client_calls_enough_fuel 4); [|exact Hfuel].
  unfold get_client_calls.
  rewrite (final_state_Ok
             (bind_types (visit 4) empty_state
                (parse_code (lambda_ast args defaults body) lambda_table)))
    by (vm_compute; reflexivity).
  cbn [mbind result_bind]. rewrite collect_api_calls_pairs.
  rewrite invocations_untyped; [reflexivity|].
  vm_compute. repeat constructor.
Qed.

Lemma lambda_bodies_yield_nothing_witness :
  get_client_calls 4
    (lambda_ast [] []
       (Call 10 (Attribute 11 (client_of 12 13 14 (Str 15 "s3")) "list_objects")
             [] [] None None))
    lambda_table = Ok ∅.
Proof. apply lambda_bodies_yield_nothing. lia. Defined.

(** ** Termination without function definitions *)

Lemma finishes_Ok st : symbol_nodes st = ∅ -> finishes (Ok st).
Proof. intros Hst. split; [done|]. intros st' [= <-]. exact Hst. Qed.

Lemma finishes_Raise e : finishes (Raise e).
Proof. split; [done|]. intros st' Hst. discriminate Hst. Qed.

Lemma finishes_bind (m : result state) (k : state -> result state) :
  finishes m ->
  (forall st, symbol_nodes st = ∅ -> finishes (k st)) ->
  finishes (m ≫= k).
Proof.
  intros [Hm Hst] Hk. destruct m as [st| |]; cbn [mbind result_bind].
  - apply Hk, Hst. reflexivity.
  - apply finishes_Raise.
  - done.
Qed.

Lemma for_each_finishes {A} (f : state -> A -> result state) l :
  (forall st x, x ∈ l -> symbol_nodes st = ∅ -> finishes (f st x)) ->
  forall st, symbol_nodes st = ∅ -> finishes (for_each f st l).
Proof.
  induction l as [|x l IH]; intros Hf st Hst; cbn [for_each].
  - by apply finishes_Ok.
  - apply finishes_bind.
    + apply Hf; [by left | exact Hst].
    + intros st1 Hst1. apply IH; [|exact Hst1].
      intros st2 y Hy. apply Hf. by right.
Qed.

Lemma set_inferred_type_finishes tbl st name t :
  symbol_nodes st = ∅ -> finishes (set_inferred_type tbl st name t).
Proof.
  intros Hst. unfold set_inferred_type, lookup.
  destruct (scope_symbols (table_scope (_local_table tbl)) !! name);
    cbn [mbind result_bind]; [by apply finishes_Ok | apply finishes_Raise].
Qed.

Lemma has_ast_node_unregistered tbl st name :
  symbol_nodes st = ∅ -> has_ast_node_for_symbol tbl st name = false.
Proof.
  intros Hst. unfold has_ast_node_for_symbol, lookup_ast_node_for_symbol, lookup.
  destruct (scope_symbols (table_scope (_local_table tbl)) !! name)
    as [[]|]; cbn [mbind result_bind is_global]; [|by rewrite Hst|done].
  destruct (scope_symbols (table_scope (_global_table tbl)) !! name);
    cbn [mbind result_bind]; [by rewrite Hst | done].
Qed.

Lemma length_flat_map_elem {A B} (f : A -> list B) l x :
  x ∈ l -> length (f x) <= length (flat_map f l).
Proof.
  induction 1 as [x l | x y l _ IH]; cbn [flat_map]; rewrite length_app; lia.
Qed.

Lemma walk_child n c :
  c ∈ iter_child_nodes n ->
  length (walk c) < length (walk n) /\
  (Forall not_a_definition (walk n) -> Forall not_a_definition (walk c)).
Proof.
  intros Hc. rewrite (walk_unfold n). split.
  - cbn [length]. pose proof (length_flat_map_elem walk _ _ Hc). lia.
  - intros Hall. apply Forall_cons in Hall as [_ Hall].
    rewrite Forall_forall in Hall. apply Forall_forall. intros x Hx.
    apply Hall, list_elem_of_In, in_flat_map. exists c.
    split; by apply list_elem_of_In.
Qed.

Section Terminates.
Variable bound : nat.
Variable visit : SymbolTableTypeInfer -> state -> node -> result state.
Hypothesis visit_finishes :
  forall self st n,
    Forall not_a_definition (walk n) -> length (walk n) <= bound ->
    symbol_nodes st = ∅ -> finishes (visit self st n).

Lemma generic_visit_finishes self st n :
  Forall not_a_definition (walk n) -> length (walk n) <= S bound ->
  symbol_nodes st = ∅ -> finishes (generic_visit visit self st n).
Proof using visit_finishes.
  intros Hn Hlen Hst. unfold generic_visit. apply for_each_finishes; [|done].
  intros st1 c Hc Hst1. destruct (walk_child _ _ Hc) as [Hlt Hdefs].
  apply visit_finishes; [by apply Hdefs | lia | exact Hst1].
Qed.

Lemma visit_node_finishes self st n :
  Forall not_a_definition (walk n) -> length (walk n) <= S bound ->
  symbol_nodes st = ∅ -> finishes (visit_node visit self st n).
Proof using visit_finishes.
  intros Hn Hlen Hst.
  pose proof (fun st' => generic_visit_finishes self st' n Hn Hlen) as Hgen.
  assert (Hself : not_a_definition n).
  { rewrite walk_unfold in Hn. by apply Forall_cons in Hn as [? _]. }
  destruct n as [m | s | e]; [| destruct s | destruct e];
    cbn [visit_node]; try (by apply Hgen); try done.
  - by apply finishes_Ok.
  - unfold visit_Return. apply finishes_bind; [by apply Hgen|].
    intros st1 Hst1.
    destruct (value ≫= _); by apply finishes_Ok.
  - unfold visit_Assign. apply finishes_bind; [by apply Hgen|].
    intros st1 Hst1.
    match goal with
    | |- finishes (let '(_, _) := ?X in _) =>
        assert (symbol_nodes X.2 = ∅) as Hpair;
        [|destruct X as [rhs st2]; cbn [snd] in Hpair]
    end.
    { destruct (node_inferred_type st1 (expr_id value)); [done|].
      by destruct value. }
    apply for_each_finishes; [|exact Hpair].
    intros st3 t _ Hst3. destruct t; try by apply finishes_Ok.
    apply finishes_bind; [by apply set_inferred_type_finishes|].
    intros st4 Hst4. by apply finishes_Ok.
  - unfold visit_Import. apply for_each_finishes; [|exact Hst].
    intros st1 a _ Hst1.
    destruct (String.eqb _ _);
      [by apply set_inferred_type_finishes | by apply finishes_Ok].
  - unfold visit_Name, get_inferred_type, lookup.
    destruct (scope_symbols
                (table_scope (_local_table (_symbol_table self))) !! id)
      as [[]|]; cbn [mbind result_bind is_global];
      [|by apply finishes_Ok|apply finishes_Raise].
    destruct (scope_symbols
                (table_scope (_global_table (_symbol_table self))) !! id);
      cbn [mbind result_bind]; by apply finishes_Ok.
  - unfold visit_Attribute. apply finishes_bind; [by apply Hgen|].
    intros st1 Hst1.
    destruct (node_inferred_type st1 (expr_id e)) as [lhs|];
      [|by apply finishes_Ok].
    destruct (eq_Boto3ModuleType (Some lhs)).
    + destruct (String.eqb attr _CREATE_CLIENT); by apply finishes_Ok.
    + destruct lhs; by apply finishes_Ok.
  - unfold visit_Call. apply finishes_bind; [by apply Hgen|].
    intros st1 Hst1.
    destruct (eq_Boto3CreateClientType _).
    + destruct args as [|service_arg ?]; [by apply finishes_Ok|].
      destruct service_arg;
        try destruct (node_inferred_type st1 _) as [[]|];
        by apply finishes_Ok.
    + destruct (node_inferred_type st1 (expr_id e)) as [[]|];
        try (by apply finishes_Ok);
        (destruct e; try (by apply finishes_Ok);
         rewrite (has_ast_node_unregistered _ _ _ Hst1);
         by apply finishes_Ok).
  - by apply finishes_Ok.
Qed.
End Terminates.

Lemma visit_finishes_without_definitions fuel :
  forall self st n,
    Forall not_a_definition (walk n) -> length (walk n) <= fuel ->
    symbol_nodes st = ∅ -> finishes (visit fuel self st n).
Proof.
  induction fuel as [|fuel IH]; intros self st n Hn Hlen Hst.
  - rewrite walk_unfold in Hlen. cbn [length] in Hlen. lia.
  - rewrite visit_S. by apply (visit_node_finishes fuel).
Qed.

(** X17: the analysis of a module that contains no function definition
    always ends: given a recursion depth of at least the number of nodes of
    the tree, it returns a mapping or raises, and never runs out of depth. *)
Theorem analysis_without_definitions_ends
  (fuel : nat) (parsed : py_mod) (table : scope) :
  Forall not_a_definition (walk (NMod parsed)) ->
  length (walk (NMod parsed)) <= fuel ->
  (exists calls, get_client_calls fuel parsed table = Ok calls) \/
  (exists e, get_client_calls fuel parsed table = Raise e).
Proof.
  intros Hdefs Hlen. unfold get_client_calls, bind_types.
  cbn [parse_code parsed_ast symbol_table].
  match goal with
  | |- context [visit fuel ?self empty_state (NMod parsed)] =>
      destruct (visit_finishes_without_definitions fuel self empty_state
                  (NMod parsed) Hdefs Hlen eq_refl) as [Hends _];
      destruct (visit fuel self empty_state (NMod parsed))
  end; cbn [mbind result_bind]; [eauto | eauto | done].
Qed.

Lemma analysis_without_definitions_ends_witness :
  (exists calls,
     get_client_calls 20 literal_variable_ast literal_variable_table
     = Ok calls) \/
  (exists e,
     get_client_calls 20 literal_variable_ast literal_variable_table
     = Raise e).
Proof.
  apply analysis_without_definitions_ends.
  - vm_compute. repeat constructor.
  - vm_compute. lia.
Defined.
